(** * Retail store management MDP (apps/retail_store.ipynb)

    A shallow embedding of the notebook's demand model, gym environment,
    transition/reward kernel builder, greedy improvement step, value
    iteration and Q-learning driver, together with the properties stated
    for them.

    Conventions of the embedding:
    - Python [int] values (stock, action, demand, capacity [M], loop
      indices) are [Z];
    - Python/numpy [float] values (costs, probabilities, rewards, value
      tables) are exact rationals [Q]: every statement below is about the
      real-number meaning of the arithmetic, rounding is not modelled, and
      equalities between computed numbers are stated with [==];
    - numpy arrays are lists; indexing follows Python (a negative index
      counts from the end, anything else out of range raises [IndexError]);
    - a raised exception is [None] in the [option] monad;
    - [rd.random()] and the numpy generators are explicit arguments: the
      values the calls observe.

    Not embedded: plotting, the Monte-Carlo cell, [TD0], and the two
    functions the notebook leaves incomplete ([EvaluatePolicy],
    [PolicyIteration]). *)

From Stdlib Require Import ZArith QArith Qpower Qround Qminmax Qabs List Lia Lqa Bool.
From Stdlib Require String Qcanon.
Import ListNotations.

Local Open Scope Z_scope.

(** ** Exceptions as [option] *)

Definition bind {A B : Type} (m : option A) (k : A -> option B) : option B :=
  match m with
  | Some x => k x
  | None => None
  end.

Notation "x <- m ;; k" := (bind m (fun x => k))
  (at level 61, m at next level, right associativity).
Notation "' pat <- m ;; k" := (bind m (fun x => match x with pat => k end))
  (at level 61, pat pattern, m at next level, right associativity).

(** ** Python sequences *)

(** [range(n)] and [range(lo, hi)]. *)
Definition range (n : Z) : list Z := map Z.of_nat (seq 0 (Z.to_nat n)).

Definition range2 (lo hi : Z) : list Z :=
  map (fun k => lo + Z.of_nat k) (seq 0 (Z.to_nat (hi - lo))).

(** Resolution of a Python index against a sequence of length [n]. *)
Definition py_index (n : nat) (i : Z) : option nat :=
  if 0 <=? i then
    if i <? Z.of_nat n then Some (Z.to_nat i) else None
  else
    if - Z.of_nat n <=? i then Some (Z.to_nat (Z.of_nat n + i)) else None.

Fixpoint upd {A : Type} (l : list A) (k : nat) (v : A) : list A :=
  match l, k with
  | [], _ => []
  | _ :: t, O => v :: t
  | x :: t, S k' => x :: upd t k' v
  end.

(** [l[i]] *)
Definition getitem {A : Type} (l : list A) (i : Z) : option A :=
  k <- py_index (length l) i ;; nth_error l k.

(** [l[i] = v] *)
Definition setitem {A : Type} (l : list A) (i : Z) (v : A) : option (list A) :=
  k <- py_index (length l) i ;; Some (upd l k v).

(** [A[i,j]] and [A[i,j] = v] on a two-dimensional array. *)
Definition getitem2 {A : Type} (m : list (list A)) (i j : Z) : option A :=
  r <- getitem m i ;; getitem r j.

Definition setitem2 {A : Type} (m : list (list A)) (i j : Z) (v : A)
  : option (list (list A)) :=
  r <- getitem m i ;; r' <- setitem r j v ;; setitem m i r'.

(** [A[i,j,k]] and [A[i,j,k] = v] on a three-dimensional array. *)
Definition getitem3 {A : Type} (t : list (list (list A))) (i j k : Z) : option A :=
  m <- getitem t i ;; getitem2 m j k.

Definition setitem3 {A : Type} (t : list (list (list A))) (i j k : Z) (v : A)
  : option (list (list (list A))) :=
  m <- getitem t i ;; m' <- setitem2 m j k v ;; setitem t i m'.

(** [for x in l: st = body(x, st)], stopping at the first exception. *)
Fixpoint for_each {S : Type} (l : list Z) (body : Z -> S -> option S) (st : S)
  : option S :=
  match l with
  | [] => Some st
  | x :: l' => st' <- body x st ;; for_each l' body st'
  end.

(** [[f(x) for x in l]] *)
Fixpoint comprehension {B : Type} (f : Z -> option B) (l : list Z)
  : option (list B) :=
  match l with
  | [] => Some []
  | x :: l' => y <- f x ;; ys <- comprehension f l' ;; Some (y :: ys)
  end.

Local Open Scope Q_scope.

(** ** binary64 arithmetic

    A float is handled as the rational number it denotes. [rnd x] is the
    binary64 number nearest to [x], ties going to the even significand,
    subnormal numbers included; an operation of IEEE 754 arithmetic is the
    exact operation followed by [rnd]. Overflow to infinity, NaN and the
    sign of zero are outside the model. *)

(** The integer nearest to [x], ties to even. *)
Definition rne (x : Q) : Z :=
  let f := Qfloor x in
  match Qcompare (x - inject_Z f) (1#2) with
  | Lt => f
  | Gt => (f + 1)%Z
  | Eq => if Z.even f then f else (f + 1)%Z
  end.

(** The [k] with [2^k <= x < 2^(k+1)], for [x > 0]. *)
Definition binade (x : Q) : Z :=
  let k := (Z.log2 (Qnum x) - Z.log2 (Zpos (Qden x)))%Z in
  if Qle_bool (2 ^ k) x then k else (k - 1)%Z.

(** The exponent of the last place of the binary64 numbers around [x]:
    52 below the binade of [|x|], and [-1074] in the subnormal range. *)
Definition ulp_exp (x : Q) : Z := Z.max (binade (Qabs x) - 52) (-1074).

(** The multiple of [2^e] nearest to [x]. *)
Definition round_at (e : Z) (x : Q) : Q := inject_Z (rne (x / 2 ^ e)) * 2 ^ e.

Definition rnd (x : Q) : Q := Qred (round_at (ulp_exp x) x).

(** [x + y], [x - y], [x * y] and [x / y] on floats. *)
Definition fadd (x y : Q) : Q := rnd (x + y).
Definition fsub (x y : Q) : Q := rnd (x - y).
Definition fmul (x y : Q) : Q := rnd (x * y).
Definition fdiv (x y : Q) : Q := rnd (x / y).

(** Half the relative spacing of the binary64 numbers, and half the
    spacing of the subnormal ones. *)
Definition u64 : Q := 1 # 2 ^ 53.
Definition eta64 : Q := 1 # 2 ^ 1075.

(** The smallest normal binary64 number, [eta64 / u64]. *)
Definition tiny64 : Q := 1 # 2 ^ 1022.

(** [(1 + u64)^k], the growth of a relative error through [k] roundings. *)
Definition growth (k : nat) : Q := (1 + u64) ^ Z.of_nat k.

(** [approx k v r A]: the computed [v] stands for the exact [r], of
    magnitude at most [A], after at most [k] nested roundings. *)
Definition approx (k : nat) (v r A : Q) : Prop :=
  Qabs r <= A /\ Qabs (v - r) <= (growth k - 1) * A.


(** A Python [int] stored into a float array: the nearest binary64
    number, and [OverflowError] beyond the binary64 range. *)
Definition float_of_Z (z : Z) : option Q :=
  let r := rnd (inject_Z z) in
  if Qle_bool (2 ^ 1024) (Qabs r) then None else Some r.

(** A rational that is a binary64 number. *)
Definition is_float (x : Q) : Prop := rnd x = x.

(** The sum of an array accumulated from left to right in binary64. *)
Definition fsum_seq (l : list Q) : Q := fold_left fadd l 0.

(** [np.zeros(n)], [np.zeros((n,m))], [np.zeros((n,m,k))]; a negative
    dimension raises [ValueError]. *)
Definition zeros (n : Z) : option (list Q) :=
  if (n <? 0)%Z then None else Some (repeat 0 (Z.to_nat n)).

Definition zeros2 (n m : Z) : option (list (list Q)) :=
  r <- zeros m ;;
  if (n <? 0)%Z then None else Some (repeat r (Z.to_nat n)).

Definition zeros3 (n m k : Z) : option (list (list (list Q))) :=
  r <- zeros2 m k ;;
  if (n <? 0)%Z then None else Some (repeat r (Z.to_nat n)).

(** [np.sum] *)
Fixpoint sumQ (l : list Q) : Q :=
  match l with
  | [] => 0
  | x :: l' => x + sumQ l'
  end.

(** [np.cumsum]: the running sum is a float, rounded at every addition. *)
Fixpoint cumsum_from (acc : Q) (l : list Q) : list Q :=
  match l with
  | [] => []
  | x :: l' => fadd acc x :: cumsum_from (fadd acc x) l'
  end.

Definition cumsum (l : list Q) : list Q := cumsum_from 0 l.

(** [np.argmax] of a one-dimensional array: the first index holding the
    maximum. [argmax_from best bi i l] scans [l], whose head has index [i],
    with [best] the largest value seen so far and [bi] its index. *)
Fixpoint argmax_from (best : Q) (bi i : Z) (l : list Q) : Z :=
  match l with
  | [] => bi
  | x :: l' =>
      if Qlt_le_dec best x then argmax_from x i (i + 1)%Z l'
      else argmax_from best bi (i + 1)%Z l'
  end.

Definition argmax (l : list Q) : option Z :=
  match l with
  | [] => None
  | x :: l' => Some (argmax_from x 0%Z 1%Z l')
  end.

(** Python's [max] over a non-empty sequence of floats. *)
Fixpoint max_from (best : Q) (l : list Q) : Q :=
  match l with
  | [] => best
  | x :: l' => if Qlt_le_dec best x then max_from x l' else max_from best l'
  end.

(** ** Demand model *)

(** [pdem = np.array([q*(1-q)**m for m in range(M+1)])]
    [pdem[M] = pdem[M]+1-np.sum(pdem)] *)
Definition geometric (M : Z) (q : Q) : list Q :=
  map (fun m => q * (1 - q) ^ m) (range (M + 1)).

Definition make_pdem (M : Z) (q : Q) : option (list Q) :=
  let pdem := geometric M q in
  last <- getitem pdem M ;;
  setitem pdem M (last + 1 - sumQ pdem).

(** [SimuDemand(pdem)], with [u] the value returned by [rd.random()].
    [scan_demand u l i] is the [while (u > cpdem[i]): i = i+1] loop, [l]
    being the part of [cpdem] from index [i] on; running off the end of
    [cpdem] is the [IndexError] of [cpdem[i]]. *)
Fixpoint scan_demand (u : Q) (l : list Q) (i : Z) : option Z :=
  match l with
  | [] => None
  | ci :: l' =>
      if Qlt_le_dec ci u then scan_demand u l' (i + 1)%Z else Some i
  end.

Definition SimuDemand (pdem : list Q) (u : Q) : option Z :=
  let cpdem := cumsum pdem in
  scan_demand u cpdem 0%Z.

(** An array of six non-negative floats whose exact sum is 1 and whose
    cumulative float sum ends at [1 - 2^-52]: adding [2^-54] to [1/2]
    gives [1/2] again. The largest value [rd.random()] can return is
    [1 - 2^-53]. *)
Definition lossy_pmf : list Q :=
  [1 # 2; 1 # 2 ^ 54; 1 # 2 ^ 54; 1 # 2 ^ 54; 1 # 2 ^ 54; (2 ^ 51 - 1) # 2 ^ 52].

Definition largest_draw : Q := (2 ^ 53 - 1) # 2 ^ 53.

(** ** Transition and reward formulas *)

(** [min(M, d, s+a)] on Python integers. *)
Definition min3 (x y z : Z) : Z := Z.min (Z.min x y) z.

(** [nextstate(s,a,d,M)] *)
Definition nextstate (s a d M : Z) : Z :=
  Z.max 0 (Z.min M (s + a) - d).

(** [nextreward(s,a,d,M,c,c0,h,p)] *)
Definition nextreward (s a d M : Z) (c c0 h p : Q) : Q :=
  let rew := - c * inject_Z a - h * inject_Z s
             + p * inject_Z (min3 M d (s + a)) in
  if (0 <? a)%Z then rew - c0 else rew.

(** ** The gym environment [StoreManagement] *)

(** The [info] dictionary returned by [step]. *)
Definition info : Type := list (String.string * Z).

Record StoreManagement : Type := mkStore {
  Stock_Capacity : Z;
  Maintenance_Cost : Q;
  Order_Cost : Q;
  Delivery_Cost : Q;
  Selling_Price : Q;
  Demand_Distribution : list Q;
  action_space : Z;        (* gym.spaces.Discrete(n) *)
  observation_space : Z;   (* gym.spaces.Discrete(n) *)
  curr_step : Z;
  state : Z
}.

Definition set_state (self : StoreManagement) (cs st : Z) : StoreManagement :=
  mkStore (Stock_Capacity self) (Maintenance_Cost self) (Order_Cost self)
          (Delivery_Cost self) (Selling_Price self) (Demand_Distribution self)
          (action_space self) (observation_space self) cs st.

(** [StoreManagement.step(self, action)]; [u] is the uniform draw made by
    the call to [SimuDemand]. Returns the updated object and the 4-tuple. *)
Definition step (self : StoreManagement) (action : Z) (u : Q)
  : option (StoreManagement * (Z * Q * bool * info)) :=
  let cs := (curr_step self + 1)%Z in
  Demand <- SimuDemand (Demand_Distribution self) u ;;
  let reward := nextreward (state self) action Demand (Stock_Capacity self)
                  (Order_Cost self) (Delivery_Cost self)
                  (Maintenance_Cost self) (Selling_Price self) in
  let st := nextstate (state self) action Demand (Stock_Capacity self) in
  let self' := set_state self cs st in
  Some (self', (state self', reward, false, [])).

(** [StoreManagement.reset(self, InitialStock)]: no [return] statement, so
    the call evaluates to [None], rendered as [tt]. *)
Definition reset (self : StoreManagement) (InitialStock : Z)
  : StoreManagement * unit :=
  (set_state self (-1)%Z InitialStock, tt).

Section Store.

(** The notebook's global parameters. *)
Variable M : Z.            (* stock capacity *)
Variables h c c0 p : Q.    (* maintenance, ordering, delivery costs; price *)
Variable pdem : list Q.    (* demand distribution *)
Variable gamma : Q.        (* discount factor *)

(** [StoreManagement.__init__(self, FirstState)] *)
Definition StoreManagement_init (FirstState : Z) : StoreManagement :=
  mkStore M h c c0 p pdem (M + 1)%Z (M + 1)%Z (-1)%Z FirstState.

(** [SimulateTrajectory(T,Pi,s1)]. [us t] is the uniform draw of the
    [step] call of iteration [t], and [Pi t s] is what the call [Pi(s)]
    of iteration [t] returns: a policy may draw random numbers, so its
    result depends on the call, and it may raise. [States] is a float
    array: the stock is converted when it is stored. *)
Definition SimulateTrajectory_body (Pi : Z -> Z -> option Z) (us : Z -> Q)
    (t : Z) (st : list Q * list Q * StoreManagement)
  : option (list Q * list Q * StoreManagement) :=
  let '(States, Rewards, env) := st in
  x <- float_of_Z (state env) ;;
  States <- setitem States t x ;;
  action <- Pi t (state env) ;;
  '(env, (_, rew, _, _)) <- step env action (us t) ;;
  Rewards <- setitem Rewards t rew ;;
  Some (States, Rewards, env).

Definition SimulateTrajectory (T : Z) (Pi : Z -> Z -> option Z) (s1 : Z)
    (us : Z -> Q)
  : option (list Q * list Q) :=
  Rewards <- zeros (T + 1) ;;
  States <- zeros (T + 1) ;;
  let env := StoreManagement_init s1 in
  '(States, Rewards, _) <-
    for_each (range T) (SimulateTrajectory_body Pi us) (States, Rewards, env) ;;
  Some (States, Rewards).

(** *** Transition and reward kernels *)

(** Body of the innermost loop of the kernel computation. *)
Definition kernel_body (a s d : Z) (st : list (list (list Q)) * list (list Q))
  : option (list (list (list Q)) * list (list Q)) :=
  let '(K, avgR) := st in
  let ns := Z.max 0 (Z.min M (s + a) - d) in
  let reward := - c * inject_Z a - h * inject_Z s
                + p * inject_Z (min3 M d (s + a)) in
  let reward := if (0 <? a)%Z then reward - c0 else reward in
  pd <- getitem pdem d ;;
  k <- getitem3 K s ns a ;;
  K <- setitem3 K s ns a (k + pd) ;;
  r <- getitem2 avgR s a ;;
  avgR <- setitem2 avgR s a (r + pd * reward) ;;
  Some (K, avgR).

(** The cell computing [K] and [avgR]. *)
Definition build_kernel : option (list (list (list Q)) * list (list Q)) :=
  K <- zeros3 (M + 1) (M + 1) (M + 1) ;;
  avgR <- zeros2 (M + 1) (M + 1) ;;
  for_each (range (M + 1)) (fun a =>
    for_each (range (M + 1)) (fun s =>
      for_each (range (M + 1)) (fun d => kernel_body a s d))) (K, avgR).

(** *** Greedy improvement and value iteration *)

Variable K : list (list (list Q)).
Variable avgR : list (list Q).

(** [avgR[s,a]+gamma*np.sum([K[s,ns,a]*V[ns] for ns in range(M+1)])] *)
Definition Qvalue (V : list Q) (s a : Z) : option Q :=
  r <- getitem2 avgR s a ;;
  terms <- comprehension (fun ns =>
             k <- getitem3 K s ns a ;; v <- getitem V ns ;; Some (k * v))
           (range (M + 1)) ;;
  Some (r + gamma * sumQ terms).

Definition Improve_body (V : list Q) (s : Z)
    (st : list Z * list Q * list (list Q))
  : option (list Z * list Q * list (list Q)) :=
  let '(Pi, newV, Qt) := st in
  Qt <- for_each (range (M + 1)) (fun a Qt =>
          x <- Qvalue V s a ;; setitem2 Qt s a x) Qt ;;
  row <- getitem Qt s ;;
  pi <- argmax row ;;
  Pi <- setitem Pi s pi ;;
  x <- getitem2 Qt s pi ;;
  newV <- setitem newV s x ;;
  Some (Pi, newV, Qt).

(** [Improve(V)]. [Pi] holds integers throughout ([np.zeros] followed by
    [astype(int)] after every write). *)
Definition Improve (V : list Q) : option (list Z * list Q) :=
  Pi <- zeros (M + 1) ;;
  let Pi := map (fun _ => 0%Z) Pi in
  newV <- zeros (M + 1) ;;
  Qt <- zeros2 (M + 1) (M + 1) ;;
  '(Pi, newV, _) <- for_each (range (M + 1)) (Improve_body V) (Pi, newV, Qt) ;;
  Some (Pi, newV).

(** Elementwise difference [V - W] of two arrays of the same length. *)
Definition vsub (V W : list Q) : list Q :=
  map (fun vw => fst vw - snd vw) (combine V W).

(** Square of [np.linalg.norm(x)]. *)
Definition sqnorm (x : list Q) : Q := sumQ (map (fun v => v * v) x).

(** [np.linalg.norm(x) > epsilon], decided on the squares. *)
Definition norm_gt (x : list Q) (epsilon : Q) : bool :=
  if Qlt_le_dec epsilon 0 then true
  else if Qlt_le_dec (epsilon * epsilon) (sqnorm x) then true else false.

(** One pass through the body of the [while] loop of [ValueIteration]. *)
Definition ValueIteration_body (st : list Q * list Z * list Q * Z)
  : option (list Q * list Z * list Q * Z) :=
  let '(V, Pi, newV, nIt) := st in
  let nIt := (nIt + 1)%Z in
  let V := newV in
  '(Pi, newV) <- Improve V ;;
  Some (V, Pi, newV, nIt).

(** The [while] loop, with [fuel] bounding the number of iterations. *)
Fixpoint ValueIteration_loop (fuel : nat) (epsilon : Q)
    (st : list Q * list Z * list Q * Z)
  : option (list Z * list Q * Z) :=
  let '(V, Pi, newV, nIt) := st in
  if norm_gt (vsub V newV) epsilon then
    match fuel with
    | O => None
    | S fuel' =>
        st' <- ValueIteration_body st ;;
        ValueIteration_loop fuel' epsilon st'
    end
  else Some (Pi, newV, nIt).

(** [ValueIteration(epsilon)]; [rand] is the array [10*np.random.rand(M+1)]. *)
Definition ValueIteration (fuel : nat) (epsilon : Q) (rand : list Q)
  : option (list Z * list Q * Z) :=
  V <- zeros (M + 1) ;;
  Pi <- zeros (M + 1) ;;
  let Pi := map (fun _ => 0%Z) Pi in
  ValueIteration_loop fuel epsilon (V, Pi, rand, 0%Z).

End Store.

(** ** Q-learning *)

(** The random values one Q-update observes. *)
Record draws : Type := mkDraws {
  rand_action : Z;    (* np.random.randint(M+1) *)
  rand_explore : Q;   (* rd.random(), compared with epsilon *)
  rand_demand : Q     (* rd.random() inside SimuDemand *)
}.

(** The mutable objects of [QLearning]. [ql_updates] counts the Q-updates
    executed so far; it is also the position in the stream of draws. *)
Record QLstate : Type := mkQL {
  ql_Q : list (list Q);
  ql_N : list (list Q);
  ql_env : StoreManagement;
  ql_updates : Z
}.

Section Learning.

Variable M : Z.
Variables h c c0 p : Q.
Variable pdem : list Q.
Variable gamma : Q.
Variable pow_half : Q -> Q.    (* x ** 0.5 *)
Variable rng : Z -> draws.     (* the draws of the n-th Q-update *)

(** [epsilon = 0.3] *)
Definition QLearning_epsilon : Q := 3 # 10.

(** [max(row)] *)
Definition pymax (row : list Q) : option Q :=
  match row with
  | [] => None
  | x :: l => Some (max_from x l)
  end.

(** Body of the inner loop of [QLearning]: one Q-update. *)
Definition QLearning_update (st : QLstate) : option QLstate :=
  let d := rng (ql_updates st) in
  let Qt := ql_Q st in
  let N := ql_N st in
  let env := ql_env st in
  let S := state env in
  let A := rand_action d in
  A <- (if Qlt_le_dec QLearning_epsilon (rand_explore d)
        then row <- getitem Qt S ;; argmax row
        else Some A) ;;
  n <- getitem2 N S A ;;
  N <- setitem2 N S A (n + 1) ;;
  '(env, (nS, rew, _, _)) <- step env A (rand_demand d) ;;
  row <- getitem Qt nS ;;
  mx <- pymax row ;;
  q <- getitem2 Qt S A ;;
  let delta := rew + gamma * mx - q in
  n <- getitem2 N S A ;;
  let alpha := 1 / pow_half (1 + n) in
  Qt <- setitem2 Qt S A (q + alpha * delta) ;;
  Some (mkQL Qt N env (ql_updates st + 1)%Z).

(** [np.array([np.argmax(Q[s,:]) for s in range(M+1)])] *)
Definition greedy (Qt : list (list Q)) : option (list Z) :=
  comprehension (fun s => row <- getitem Qt s ;; argmax row) (range (M + 1)).

(** Body of the outer loop: run the updates of one segment, then extract
    and print the greedy policy. The printed lines are collected as pairs
    (announced iteration count, policy). *)
Definition QLearning_segment (Landmarks : list Z) (k : Z)
    (acc : QLstate * option (list Z) * list (Z * list Z))
  : option (QLstate * option (list Z) * list (Z * list Z)) :=
  let '(st, _, out) := acc in
  lo <- getitem Landmarks k ;;
  hi <- getitem Landmarks (k + 1)%Z ;;
  st <- for_each (range2 (lo + 1)%Z hi) (fun _ st => QLearning_update st) st ;;
  Pi <- greedy (ql_Q st) ;;
  Some (st, Some Pi, out ++ [(hi, Pi)]).

(** The objects [QLearning] starts from: [Q0] is
    [10*np.random.rand(1+M,1+M)] and [s0] is [np.random.randint(M+1)]. *)
Definition QLearning_init (Q0 : list (list Q)) (s0 : Z) : option QLstate :=
  N <- zeros2 (M + 1) (M + 1) ;;
  let env := StoreManagement_init M h c c0 p pdem s0 in
  Some (mkQL Q0 N env 0%Z).

(** [QLearning(Landmarks)]. Returns [(Pi, Q)] and the printed lines;
    [Pi] is unbound, hence an exception at [return], when the outer loop
    never runs. *)
Definition QLearning (Landmarks : list Z) (Q0 : list (list Q)) (s0 : Z)
  : option (list Z * list (list Q) * list (Z * list Z)) :=
  let nbLands := Z.of_nat (length Landmarks) in
  st0 <- QLearning_init Q0 s0 ;;
  '(st, Pi, out) <-
    for_each (range (nbLands - 1)) (QLearning_segment Landmarks)
             (st0, None, []) ;;
  Pi <- Pi ;;
  Some (Pi, ql_Q st, out).

(** The state reached from [st] by [n] successive Q-updates. *)
Fixpoint QLearning_updates (n : nat) (st : QLstate) : option QLstate :=
  match n with
  | O => Some st
  | S n' => st' <- QLearning_update st ;; QLearning_updates n' st'
  end.

End Learning.

(** ** Loop invariants and measures used in the statements *)

(** What holds of the loop state of [SimulateTrajectory] once the
    iterations [t < n] are done: entries from index [n] on are still the
    initial zeros, and the stock is back within the capacity. *)
Definition trajectory_inv (M : Z) (pdem : list Q) (T s1 n : Z)
    (st : list Q * list Q * StoreManagement) : Prop :=
  let '(States, Rewards, env) := st in
  Z.of_nat (length States) = (T + 1)%Z /\
  Z.of_nat (length Rewards) = (T + 1)%Z /\
  Demand_Distribution env = pdem /\
  Stock_Capacity env = M /\
  (forall j, (n <= j <= T)%Z ->
     getitem States j = Some 0 /\ getitem Rewards j = Some 0) /\
  ((0 < n)%Z -> getitem States 0 = Some (inject_Z s1)) /\
  (n = 0%Z -> state env = s1) /\
  ((0 < n)%Z -> (0 <= state env <= M)%Z).

(** Shapes of two- and three-dimensional arrays. *)
Definition shape1 (n : Z) (v : list Q) : Prop := Z.of_nat (length v) = n.

Definition shape2 (n m : Z) (A : list (list Q)) : Prop :=
  Z.of_nat (length A) = n /\ Forall (shape1 m) A.

Definition shape3 (n m k : Z) (T : list (list (list Q))) : Prop :=
  Z.of_nat (length T) = n /\ Forall (shape2 m k) T.

(** Entries read with a default, for use in statements. *)
Definition at1 (v : list Q) (i : Z) : Q :=
  match getitem v i with Some x => x | None => 0 end.

Definition at2 (A : list (list Q)) (i j : Z) : Q :=
  match getitem2 A i j with Some x => x | None => 0 end.

Definition at3 (T : list (list (list Q))) (i j k : Z) : Q :=
  match getitem3 T i j k with Some x => x | None => 0 end.

(** The transition probability and the mean reward as sums over the
    demand: what [K[s,ns,a]] and [avgR[s,a]] are meant to hold. *)
Definition transition_prob (M : Z) (pdem : list Q) (s ns a : Z) : Q :=
  sumQ (map (fun d => if (nextstate s a d M =? ns)%Z then at1 pdem d else 0)
            (range (M + 1))).

Definition mean_reward (M : Z) (h c c0 p : Q) (pdem : list Q) (s a : Z) : Q :=
  sumQ (map (fun d => at1 pdem d * nextreward s a d M c c0 h p)
            (range (M + 1))).

(** The entry [Q[s,a]] of the table built by [Improve(V)], read with
    defaults. *)
Definition Qvalue_at (M : Z) (gamma : Q) (K : list (list (list Q)))
    (avgR : list (list Q)) (V : list Q) (s a : Z) : Q :=
  at2 avgR s a
  + gamma * sumQ (map (fun ns => at3 K s ns a * at1 V ns) (range (M + 1))).

(** [Pi[s]] is the first maximiser of [Q[s,.]] and [newV[s]] the maximum. *)
Definition greedy_at (M : Z) (Qf : Z -> Z -> Q) (Pi : list Z) (newV : list Q)
    (s : Z) : Prop :=
  exists pi,
    getitem Pi s = Some pi /\ (0 <= pi <= M)%Z /\
    getitem newV s = Some (Qf s pi) /\
    forall a, (0 <= a <= M)%Z ->
      Qf s a <= Qf s pi /\ ((a < pi)%Z -> Qf s a < Qf s pi).

(** The maximum norm [max_i |x_i|] of an array. *)
Fixpoint supnorm (x : list Q) : Q :=
  match x with
  | [] => 0
  | v :: x' => Qmax (Qabs v) (supnorm x')
  end.

(** The change [V - newV] between the two value arrays held by the loop
    of [ValueIteration], in the maximum norm, and the square of its
    Euclidean norm (the quantity the loop tests, squared). *)
Definition sup_change (st : list Q * list Z * list Q * Z) : Q :=
  let '(V, _, newV, _) := st in supnorm (vsub V newV).


(** A transition tensor whose rows [K[s,.,a]] are probability
    distributions. *)
Definition stochastic (M : Z) (K : list (list (list Q))) : Prop :=
  (forall s ns a, (0 <= s <= M)%Z -> (0 <= ns <= M)%Z -> (0 <= a <= M)%Z ->
     0 <= at3 K s ns a) /\
  (forall s a, (0 <= s <= M)%Z -> (0 <= a <= M)%Z ->
     sumQ (map (fun ns => at3 K s ns a) (range (M + 1))) == 1).

(** The number of Q-updates [QLearning(Landmarks)] has executed when it
    leaves its [k]-th segment: segment [j] runs
    [range(Landmarks[j]+1, Landmarks[j+1])]. *)
Fixpoint updates_done (Landmarks : list Z) (k : nat) : Z :=
  match k with
  | O => 0%Z
  | S j =>
      (updates_done Landmarks j
       + Z.max 0 (nth (S j) Landmarks 0%Z - (nth j Landmarks 0%Z + 1)))%Z
  end.

(** A rational stand-in for [x ** 0.5]: three Newton steps from 1. *)
Definition newton_sqrt (x : Q) : Q :=
  let step y := Qred ((y + x / y) / 2) in
  step (step (step 1)).

(** ** The baseline policies *)

(** [rd.sample(population, 1)]: [k] is the position drawn; a population with
    no element raises [ValueError], and only positions inside the
    population are draws. *)
Definition rd_sample1 (population : list Z) (k : nat) : option (list Z) :=
  match nth_error population k with
  | Some x => Some [x]
  | None => None
  end.

(** [PiUniform(s)] *)
Definition PiUniform (M : Z) (s : Z) (k : nat) : option Z :=
  x <- rd_sample1 (range (M + 1 - s)) k ;;
  x0 <- getitem x 0 ;;
  Some (s + x0)%Z.

(** [PiConstant(s,c)]; the default is [c=3]. *)
Definition PiConstant (M : Z) (s : Z) (c : Z) : Z := Z.min c (M - s).


(** ** TD(0) *)

Section Evaluation.

Variable M : Z.
Variables h c c0 p : Q.
Variable pdem : list Q.
Variable gamma : Q.
Variable pow_half : Q -> Q.    (* x ** 0.5 *)




End Evaluation.

(** ** The CartPole loop (first notebook) *)

(** Body of the loop counting episodes; [done] is the termination flag
    returned by [env.step]. The state is
    [(episode, cumulative_reward, maximum_reward)]. *)
Definition episode_body (done : bool) (st : Z * Z * Z) : Z * Z * Z :=
  let '(episode, cumulative_reward, maximum_reward) := st in
  if done then
    let episode := (episode + 1)%Z in
    let maximum_reward :=
      if (maximum_reward <? cumulative_reward)%Z then cumulative_reward
      else maximum_reward in
    (episode, 0%Z, maximum_reward)
  else (episode, (cumulative_reward + 1)%Z, maximum_reward).

(** [for _ in range(n): ...] from the initial counters; the notebook runs
    it with [n = 500]. [dones t] is the flag of iteration [t]. *)
Definition episode_loop (n : Z) (dones : Z -> bool) : Z * Z * Z :=
  fold_left (fun st t => episode_body (dones t) st) (range n) (0%Z, 0%Z, 0%Z).

Definition cartpole_run (dones : Z -> bool) : Z * Z * Z := episode_loop 500 dones.

(** ** Measures used in the further statements *)

(** [body] applied [n] times. *)
Fixpoint iterate_body {St : Type} (body : St -> option St) (n : nat) (st : St)
  : option St :=
  match n with
  | O => Some st
  | S n' => st' <- body st ;; iterate_body body n' st'
  end.

(** Number of iterations [t < n] whose flag is set. *)
Definition count_done (n : Z) (dones : Z -> bool) : Z :=
  Z.of_nat (length (filter dones (range n))).


(** The test of the [while] loop of [ValueIteration] on a loop state, and
    the triple the function returns from it. *)
Definition VI_continues (epsilon : Q) (st : list Q * list Z * list Q * Z) : bool :=
  let '(V, _, newV, _) := st in norm_gt (vsub V newV) epsilon.

Definition VI_result (st : list Q * list Z * list Q * Z) : list Z * list Q * Z :=
  let '(_, Pi, newV, nIt) := st in (Pi, newV, nIt).


(** * Properties *)

(** ** binary64 rounding *)

Lemma Qfloor_unique (x : Q) (n : Z) :
  inject_Z n <= x -> x < inject_Z (n + 1) -> Qfloor x = n.
Proof.
  intros H1 H2.
  pose proof (Qfloor_le x) as F1. pose proof (Qlt_floor x) as F2.
  assert (A : (n < Qfloor x + 1)%Z).
  { rewrite Zlt_Qlt. eapply Qle_lt_trans; [exact H1 | exact F2]. }
  assert (B : (Qfloor x < n + 1)%Z).
  { rewrite Zlt_Qlt. eapply Qle_lt_trans; [exact F1 | exact H2]. }
  lia.
Qed.

Lemma rne_cases (x : Q) :
  (rne x = Qfloor x /\ x - inject_Z (Qfloor x) <= 1#2) \/
  (rne x = (Qfloor x + 1)%Z /\ 1#2 <= x - inject_Z (Qfloor x)).
Proof.
  unfold rne. destruct (Qcompare_spec (x - inject_Z (Qfloor x)) (1#2)) as [E | E | E].
  - destruct (Z.even (Qfloor x)); [left | right]; split; auto; lra.
  - left; split; auto; lra.
  - right; split; auto; lra.
Qed.

Lemma rne_near (x : Q) : Qabs (inject_Z (rne x) - x) <= 1#2.
Proof.
  pose proof (Qfloor_le x) as F1. pose proof (Qlt_floor x) as F2.
  rewrite inject_Z_plus in F2.
  apply Qabs_Qle_condition.
  destruct (rne_cases x) as [[-> H] | [-> H]]; rewrite ?inject_Z_plus;
    change (inject_Z 1) with 1 in *; split; lra.
Qed.

Lemma rne_mono (x y : Q) : x <= y -> (rne x <= rne y)%Z.
Proof.
  intros Hxy. pose proof (Qfloor_resp_le x y Hxy) as Hf.
  destruct (Z.eq_dec (Qfloor x) (Qfloor y)) as [E | NE].
  - unfold rne. rewrite <- E.
    destruct (Qcompare_spec (x - inject_Z (Qfloor x)) (1#2)) as [E1 | E1 | E1];
      destruct (Qcompare_spec (y - inject_Z (Qfloor x)) (1#2)) as [E2 | E2 | E2];
      try (destruct (Z.even (Qfloor x))); try lia; exfalso; lra.
  - destruct (rne_cases x) as [[-> _] | [-> _]];
      destruct (rne_cases y) as [[-> _] | [-> _]]; lia.
Qed.

Lemma rne_Z (n : Z) : rne (inject_Z n) = n.
Proof.
  unfold rne. rewrite Qfloor_Z.
  destruct (Qcompare_spec (inject_Z n - inject_Z n) (1#2)) as [E | E | E];
    [exfalso; lra | reflexivity | exfalso; lra].
Qed.

#[global]
Instance rne_comp : Proper (Qeq ==> eq) rne.
Proof.
  intros x y E. unfold rne. rewrite (Qfloor_comp x y E).
  assert (E' : x - inject_Z (Qfloor y) == y - inject_Z (Qfloor y)) by (rewrite E; reflexivity).
  now rewrite (Qcompare_comp _ _ E' _ _ (Qeq_refl (1#2))).
Qed.

Lemma rne_opp (x : Q) : rne (- x) = (- rne x)%Z.
Proof.
  pose proof (Qfloor_le x) as F1. pose proof (Qlt_floor x) as F2.
  rewrite inject_Z_plus in F2.
  destruct (Qeq_dec x (inject_Z (Qfloor x))) as [E | NE].
  - assert (E1 : rne (- x) = rne (inject_Z (- Qfloor x))).
    { apply rne_comp. rewrite inject_Z_opp, <- E. reflexivity. }
    assert (E2 : rne x = rne (inject_Z (Qfloor x))) by (apply rne_comp; exact E).
    rewrite E1, E2, !rne_Z. reflexivity.
  - assert (Hf : Qfloor (- x) = (- Qfloor x - 1)%Z).
    { apply Qfloor_unique.
      - unfold Z.sub. rewrite inject_Z_plus, !inject_Z_opp.
        change (inject_Z 1) with 1 in *. lra.
      - replace (- Qfloor x - 1 + 1)%Z with (- Qfloor x)%Z by lia.
        rewrite inject_Z_opp.
        assert (inject_Z (Qfloor x) < x) by (apply Qle_lt_or_eq in F1; destruct F1; [assumption | exfalso; apply NE; symmetry; assumption]).
        lra. }
    unfold rne. rewrite Hf.
    assert (I : inject_Z (- Qfloor x - 1) == - inject_Z (Qfloor x) - 1).
    { unfold Z.sub. rewrite inject_Z_plus, !inject_Z_opp. reflexivity. }
    change (inject_Z 1) with 1 in F2.
    destruct (Qcompare_spec (x - inject_Z (Qfloor x)) (1#2)) as [E1 | E1 | E1];
      destruct (Qcompare_spec (- x - inject_Z (- Qfloor x - 1)) (1#2)) as [E2 | E2 | E2];
      try (exfalso; lra).
    + replace (- Qfloor x - 1)%Z with (- (Qfloor x + 1))%Z by lia.
      rewrite Z.even_opp. replace (Qfloor x + 1)%Z with (Z.succ (Qfloor x)) by lia.
      rewrite Z.even_succ, <- Z.negb_even.
      destruct (Z.even (Qfloor x)); simpl; lia.
    + lia.
    + lia.
Qed.

(** Powers of two. *)

Lemma pow2_pos (e : Z) : 0 < 2 ^ e.
Proof. apply Qpower_0_lt. reflexivity. Qed.

Lemma pow2_plus (a b : Z) : 2 ^ (a + b) == 2 ^ a * 2 ^ b.
Proof. apply Qpower_plus. discriminate. Qed.

Lemma pow2_succ (e : Z) : 2 ^ (e + 1) == 2 * 2 ^ e.
Proof. rewrite pow2_plus. change (2 ^ 1) with 2. ring. Qed.

Lemma pow2_le (a b : Z) : (a <= b)%Z -> 2 ^ a <= 2 ^ b.
Proof. intros H. apply Qpower_le_compat_l; [exact H | discriminate]. Qed.

Lemma pow2_lt (a b : Z) : (a < b)%Z -> 2 ^ a < 2 ^ b.
Proof. intros H. apply Qpower_lt_compat_l; [exact H | reflexivity]. Qed.

Lemma pow2_inject (e : Z) : (0 <= e)%Z -> inject_Z (2 ^ e) == 2 ^ e.
Proof. intros H. now rewrite Zpower_Qpower. Qed.

Lemma pow2_minus (a b : Z) : 2 ^ (a - b) == 2 ^ a / 2 ^ b.
Proof. apply Qpower_minus. discriminate. Qed.

(** [binade x] is the exponent of the power of two just below [x]. *)

Lemma binade_spec (x : Q) :
  0 < x -> 2 ^ binade x <= x /\ x < 2 ^ (binade x + 1).
Proof.
  intros Hx. unfold binade.
  destruct x as [n d]. cbn [Qnum Qden].
  assert (Hn : (0 < n)%Z) by (unfold Qlt in Hx; simpl in Hx; lia).
  set (ln := Z.log2 n). set (ld := Z.log2 (Zpos d)).
  destruct (Z.log2_spec n Hn) as [N1 N2]. fold ln in N1, N2.
  destruct (Z.log2_spec (Zpos d) eq_refl) as [D1 D2]. fold ld in D1, D2.
  assert (Hln : (0 <= ln)%Z) by apply Z.log2_nonneg.
  assert (Hld : (0 <= ld)%Z) by apply Z.log2_nonneg.
  rewrite Zle_Qle, pow2_inject in N1, D1 by assumption.
  replace (Z.succ ln) with (ln + 1)%Z in N2 by lia.
  replace (Z.succ ld) with (ld + 1)%Z in D2 by lia.
  rewrite Zlt_Qlt, pow2_inject, pow2_succ in N2, D2 by lia.
  pose proof (pow2_pos ln) as Pn. pose proof (pow2_pos ld) as Pd.
  assert (Ex : n # d == inject_Z n / inject_Z (Zpos d)) by apply Qmake_Qdiv.
  assert (Dpos : 0 < inject_Z (Zpos d)) by lra.
  assert (Up : n # d < 2 ^ (ln - ld + 1)).
  { rewrite pow2_succ, pow2_minus, Ex.
    apply Qlt_shift_div_r; [exact Dpos|].
    setoid_replace (2 * (2 ^ ln / 2 ^ ld) * inject_Z (Zpos d))
      with (2 * 2 ^ ln * (inject_Z (Zpos d) / 2 ^ ld)) by (field; lra).
    assert (1 <= inject_Z (Zpos d) / 2 ^ ld) by (apply Qle_shift_div_l; lra).
    nra. }
  assert (Lo : 2 ^ (ln - ld - 1) < n # d).
  { replace (ln - ld - 1)%Z with (ln - (ld + 1))%Z by lia.
    rewrite pow2_minus, pow2_succ, Ex.
    apply Qlt_shift_div_l; [exact Dpos|].
    setoid_replace (2 ^ ln / (2 * 2 ^ ld) * inject_Z (Zpos d))
      with (2 ^ ln * (inject_Z (Zpos d) / (2 * 2 ^ ld))) by (field; lra).
    assert (inject_Z (Zpos d) / (2 * 2 ^ ld) < 1) by (apply Qlt_shift_div_r; lra).
    nra. }
  destruct (Qle_bool (2 ^ (ln - ld)) (n # d)) eqn:B.
  - apply Qle_bool_iff in B. split; assumption.
  - assert (NB : ~ 2 ^ (ln - ld) <= n # d).
    { intros C. apply Qle_bool_iff in C. congruence. }
    apply Qnot_le_lt in NB.
    replace (ln - ld - 1 + 1)%Z with (ln - ld)%Z by lia.
    split; [apply Qlt_le_weak; exact Lo | exact NB].
Qed.

Lemma binade_unique (x : Q) (k : Z) :
  2 ^ k <= x -> x < 2 ^ (k + 1) -> binade x = k.
Proof.
  intros H1 H2.
  assert (Hx : 0 < x) by (pose proof (pow2_pos k); lra).
  destruct (binade_spec x Hx) as [B1 B2].
  destruct (Z.lt_trichotomy (binade x) k) as [L | [E | G]]; [| exact E |].
  - exfalso. assert (2 ^ (binade x + 1) <= 2 ^ k) by (apply pow2_le; lia). lra.
  - exfalso. assert (2 ^ (k + 1) <= 2 ^ binade x) by (apply pow2_le; lia). lra.
Qed.

Lemma binade_comp (x y : Q) : 0 < x -> x == y -> binade x = binade y.
Proof.
  intros Hx E. destruct (binade_spec x Hx) as [B1 B2].
  symmetry. apply binade_unique; rewrite <- E; assumption.
Qed.

Lemma binade_mono (x y : Q) : 0 < x -> x <= y -> (binade x <= binade y)%Z.
Proof.
  intros Hx Hxy. destruct (binade_spec x Hx) as [B1 _].
  destruct (binade_spec y) as [_ C2]; [lra|].
  destruct (Z.le_gt_cases (binade x) (binade y)) as [L | G]; [exact L|].
  exfalso. assert (2 ^ (binade y + 1) <= 2 ^ binade x) by (apply pow2_le; lia). lra.
Qed.

(** Rounding to the grid of multiples of [2^e]. *)

Lemma div_pow2 (x : Q) (e : Z) : x / 2 ^ e * 2 ^ e == x.
Proof. pose proof (pow2_pos e). field. lra. Qed.

Lemma round_at_comp (e : Z) (x y : Q) : x == y -> round_at e x == round_at e y.
Proof.
  intros E. unfold round_at.
  assert (E' : x / 2 ^ e == y / 2 ^ e) by (rewrite E; reflexivity).
  now rewrite (rne_comp _ _ E').
Qed.

Lemma round_at_mono (e : Z) (x y : Q) : x <= y -> round_at e x <= round_at e y.
Proof.
  intros H. unfold round_at. pose proof (pow2_pos e) as P.
  apply Qmult_le_compat_r; [| lra].
  rewrite <- Zle_Qle. apply rne_mono.
  apply Qmult_le_compat_r; [exact H |].
  apply Qlt_le_weak, Qinv_lt_0_compat, P.
Qed.

Lemma round_at_grid (e : Z) (m : Z) :
  round_at e (inject_Z m * 2 ^ e) == inject_Z m * 2 ^ e.
Proof.
  unfold round_at. pose proof (pow2_pos e) as P.
  assert (E : inject_Z m * 2 ^ e / 2 ^ e == inject_Z m) by (field; lra).
  now rewrite (rne_comp _ _ E), rne_Z.
Qed.

Lemma grid_refine (e e' : Z) (m : Z) :
  (e <= e')%Z -> inject_Z m * 2 ^ e' == inject_Z (m * 2 ^ (e' - e)) * 2 ^ e.
Proof.
  intros H. rewrite inject_Z_mult, pow2_inject by lia.
  rewrite <- Qmult_assoc, <- pow2_plus.
  replace (e' - e + e)%Z with e' by lia. reflexivity.
Qed.

Lemma round_at_fix (e e' : Z) (m : Z) :
  (e <= e')%Z -> round_at e (inject_Z m * 2 ^ e') == inject_Z m * 2 ^ e'.
Proof.
  intros H. rewrite (round_at_comp e _ _ (grid_refine e e' m H)).
  rewrite round_at_grid. symmetry. apply grid_refine, H.
Qed.

Lemma round_at_pow2 (e k : Z) : (e <= k)%Z -> round_at e (2 ^ k) == 2 ^ k.
Proof.
  intros H. assert (E : 2 ^ k == inject_Z 1 * 2 ^ k) by (change (inject_Z 1) with 1; ring).
  rewrite (round_at_comp e _ _ E), round_at_fix by exact H. symmetry. exact E.
Qed.

Lemma round_at_0 (e : Z) : round_at e 0 == 0.
Proof.
  assert (E : 0 == inject_Z 0 * 2 ^ e) by (change (inject_Z 0) with 0; ring).
  rewrite (round_at_comp e _ _ E), round_at_grid. symmetry. exact E.
Qed.

Lemma round_at_opp (e : Z) (x : Q) : round_at e (- x) == - round_at e x.
Proof.
  unfold round_at. pose proof (pow2_pos e) as P.
  assert (E : - x / 2 ^ e == - (x / 2 ^ e)) by (field; lra).
  rewrite (rne_comp _ _ E), rne_opp, inject_Z_opp. ring.
Qed.

Lemma round_at_near (e : Z) (x : Q) :
  Qabs (round_at e x - x) <= 2 ^ e * (1#2).
Proof.
  unfold round_at. pose proof (pow2_pos e) as P.
  pose proof (rne_near (x / 2 ^ e)) as N.
  assert (E : inject_Z (rne (x / 2 ^ e)) * 2 ^ e - x
              == (inject_Z (rne (x / 2 ^ e)) - x / 2 ^ e) * 2 ^ e) by (field; lra).
  rewrite E, Qabs_Qmult, (Qabs_pos (2 ^ e)) by lra.
  rewrite (Qmult_comm (2 ^ e)). apply Qmult_le_compat_r; [exact N | lra].
Qed.

(** The exponent of the unit in the last place. *)

Lemma Qabs_opp_eq (x : Q) : Qabs (- x) = Qabs x.
Proof. destruct x as [n d]. unfold Qabs, Qopp. cbn. now rewrite Z.abs_opp. Qed.

Lemma ulp_exp_opp (x : Q) : ulp_exp (- x) = ulp_exp x.
Proof. unfold ulp_exp. now rewrite Qabs_opp_eq. Qed.

Lemma ulp_exp_pos (x : Q) :
  0 < x -> ulp_exp x = Z.max (binade x - 52) (-1074).
Proof.
  intros H. unfold ulp_exp.
  rewrite (binade_comp (Qabs x) x); [reflexivity | | apply Qabs_pos; lra].
  rewrite Qabs_pos; lra.
Qed.

Lemma ulp_exp_comp (x y : Q) : ~ x == 0 -> x == y -> ulp_exp x = ulp_exp y.
Proof.
  intros NZ E. unfold ulp_exp.
  rewrite (binade_comp (Qabs x) (Qabs y)); [reflexivity | | now rewrite E].
  apply Qabs_case; intros H; destruct (Qeq_dec x 0); try contradiction; lra.
Qed.

(** Rounding to binary64. *)

Lemma rnd_eq (x : Q) : rnd x == round_at (ulp_exp x) x.
Proof. apply Qred_correct. Qed.

Lemma rnd_canon (x y : Q) : rnd x == rnd y -> rnd x = rnd y.
Proof.
  intros E. unfold rnd in *. rewrite !Qred_correct in E.
  apply Qred_complete, E.
Qed.

Lemma rnd_zero (x : Q) : x == 0 -> rnd x == 0.
Proof. intros E. rewrite rnd_eq, (round_at_comp _ _ _ E). apply round_at_0. Qed.

Lemma rnd_comp (x y : Q) : x == y -> rnd x = rnd y.
Proof.
  intros E. apply rnd_canon.
  destruct (Qeq_dec x 0) as [Z0 | NZ].
  - rewrite (rnd_zero x Z0), (rnd_zero y); [reflexivity | now rewrite <- E].
  - rewrite !rnd_eq, <- (ulp_exp_comp x y NZ E). apply round_at_comp, E.
Qed.

#[global]
Instance rnd_proper : Proper (Qeq ==> Qeq) rnd.
Proof. intros x y E. now rewrite (rnd_comp x y E). Qed.

Lemma rnd_0 : rnd 0 = 0.
Proof. reflexivity. Qed.

Lemma rnd_opp (x : Q) : rnd (- x) = - rnd x.
Proof.
  unfold rnd. rewrite <- Qred_opp. apply Qred_complete.
  rewrite ulp_exp_opp. apply round_at_opp.
Qed.

Lemma rnd_nonneg (x : Q) : 0 <= x -> 0 <= rnd x.
Proof.
  intros H. rewrite rnd_eq, <- (round_at_0 (ulp_exp x)). apply round_at_mono, H.
Qed.

Lemma rnd_mono_pos (x y : Q) : 0 < x -> x <= y -> rnd x <= rnd y.
Proof.
  intros Hx Hxy. assert (Hy : 0 < y) by lra.
  rewrite !rnd_eq, (ulp_exp_pos x Hx), (ulp_exp_pos y Hy).
  pose proof (binade_mono x y Hx Hxy) as Hk.
  destruct (binade_spec x Hx) as [_ X2]. destruct (binade_spec y Hy) as [Y1 _].
  set (kx := binade x) in *. set (ky := binade y) in *.
  destruct (Z.eq_dec (Z.max (kx - 52) (-1074)) (Z.max (ky - 52) (-1074))) as [E | NE].
  - rewrite E. apply round_at_mono, Hxy.
  - assert (L : (kx < ky)%Z) by lia.
    assert (G : 2 ^ (kx + 1) <= 2 ^ ky) by (apply pow2_le; lia).
    apply Qle_trans with (2 ^ ky).
    + rewrite <- (round_at_pow2 (Z.max (kx - 52) (-1074)) ky) by lia.
      apply round_at_mono. lra.
    + rewrite <- (round_at_pow2 (Z.max (ky - 52) (-1074)) ky) at 1 by lia.
      apply round_at_mono. exact Y1.
Qed.

Lemma rnd_mono (x y : Q) : x <= y -> rnd x <= rnd y.
Proof.
  intros Hxy.
  destruct (Qlt_le_dec 0 x) as [Hx | Hx]; [apply rnd_mono_pos; assumption|].
  destruct (Qlt_le_dec y 0) as [Hy | Hy].
  - assert (H : rnd (- y) <= rnd (- x)) by (apply rnd_mono_pos; lra).
    rewrite !rnd_opp in H. lra.
  - apply Qle_trans with 0; [| apply rnd_nonneg, Hy].
    assert (H : 0 <= rnd (- x)) by (apply rnd_nonneg; lra).
    rewrite rnd_opp in H. lra.
Qed.

(** Representable numbers: [m * 2^e] with [|m| < 2^53] and [e >= -1074]. *)

Lemma binade_lt (x : Q) (k : Z) : 0 < x -> x < 2 ^ k -> (binade x < k)%Z.
Proof.
  intros Hx H. destruct (binade_spec x Hx) as [B1 _].
  destruct (Z.lt_ge_cases (binade x) k) as [L | G]; [exact L|].
  exfalso. assert (2 ^ k <= 2 ^ binade x) by (apply pow2_le; lia). lra.
Qed.

Lemma rnd_fix_pos (m e : Z) :
  (-1074 <= e)%Z -> (0 < m < 2 ^ 53)%Z ->
  rnd (inject_Z m * 2 ^ e) == inject_Z m * 2 ^ e.
Proof.
  intros He Hm. pose proof (pow2_pos e) as P.
  assert (M1 : 0 < inject_Z m) by (change 0 with (inject_Z 0); rewrite <- Zlt_Qlt; lia).
  assert (M2 : inject_Z m < 2 ^ 53).
  { rewrite <- pow2_inject by lia. rewrite <- Zlt_Qlt. lia. }
  assert (Hx : 0 < inject_Z m * 2 ^ e) by nra.
  rewrite rnd_eq, (ulp_exp_pos _ Hx).
  apply round_at_fix.
  assert (B : (binade (inject_Z m * 2 ^ e) < 53 + e)%Z).
  { apply binade_lt; [exact Hx|]. rewrite pow2_plus. nra. }
  lia.
Qed.

Lemma rnd_fix (m e : Z) :
  (-1074 <= e)%Z -> (Z.abs m < 2 ^ 53)%Z ->
  rnd (inject_Z m * 2 ^ e) == inject_Z m * 2 ^ e.
Proof.
  intros He Hm. destruct (Z.lt_trichotomy m 0) as [L | [E | G]].
  - assert (H : rnd (inject_Z (- m) * 2 ^ e) == inject_Z (- m) * 2 ^ e)
      by (apply rnd_fix_pos; lia).
    rewrite inject_Z_opp in H.
    assert (E : - inject_Z m * 2 ^ e == - (inject_Z m * 2 ^ e)) by ring.
    rewrite (rnd_comp _ _ E), rnd_opp in H. lra.
  - subst m. assert (Z0 : inject_Z 0 * 2 ^ e == 0) by (change (inject_Z 0) with 0; ring).
    rewrite (rnd_zero _ Z0), Z0. reflexivity.
  - apply rnd_fix_pos; lia.
Qed.

Lemma rne_bound (x : Q) (n : Z) :
  - inject_Z n <= x -> x <= inject_Z n -> (Z.abs (rne x) <= n)%Z.
Proof.
  intros H1 H2.
  pose proof (rne_mono _ _ H2) as A. rewrite rne_Z in A.
  rewrite <- inject_Z_opp in H1.
  pose proof (rne_mono _ _ H1) as B. rewrite rne_Z in B. lia.
Qed.

Lemma rnd_repr (x : Q) :
  exists m e, (-1074 <= e)%Z /\ (Z.abs m < 2 ^ 53)%Z /\ rnd x == inject_Z m * 2 ^ e.
Proof.
  destruct (Qeq_dec x 0) as [Z0 | NZ].
  { exists 0%Z, 0%Z. split; [lia|]. split; [reflexivity|].
    rewrite (rnd_zero x Z0). reflexivity. }
  set (e := ulp_exp x). set (m := rne (x / 2 ^ e)).
  pose proof (pow2_pos e) as P.
  assert (HA : 0 < Qabs x).
  { apply Qabs_case; intros H; destruct (Qeq_dec x 0); try contradiction; lra. }
  destruct (binade_spec _ HA) as [_ B2].
  assert (He : (-1074 <= e)%Z /\ (binade (Qabs x) + 1 <= e + 53)%Z)
    by (unfold e, ulp_exp; lia).
  assert (Hb : Qabs x <= 2 ^ 53 * 2 ^ e).
  { rewrite <- pow2_plus. apply Qle_trans with (2 ^ (binade (Qabs x) + 1)); [lra|].
    apply pow2_le. lia. }
  assert (Hq : Qabs (x / 2 ^ e) <= inject_Z (2 ^ 53)).
  { rewrite pow2_inject by lia. unfold Qdiv.
    rewrite Qabs_Qmult, Qabs_Qinv, (Qabs_pos (2 ^ e)) by lra.
    apply Qle_shift_div_r; [exact P | exact Hb]. }
  apply Qabs_Qle_condition in Hq.
  assert (Hm : (Z.abs m <= 2 ^ 53)%Z) by (apply rne_bound; tauto).
  assert (R : rnd x == inject_Z m * 2 ^ e) by (rewrite rnd_eq; reflexivity).
  destruct (Z.eq_dec (Z.abs m) (2 ^ 53)) as [E | NE].
  - exists (m / 2)%Z, (e + 1)%Z. split; [lia|]. split.
    + assert (m = 2 ^ 53 \/ m = - 2 ^ 53)%Z as [-> | ->] by lia; reflexivity.
    + rewrite R, pow2_succ.
      assert (m = 2 ^ 53 \/ m = - 2 ^ 53)%Z as [-> | ->] by lia;
        vm_compute (inject_Z _); vm_compute (inject_Z _); ring.
  - exists m, e. split; [lia|]. split; [lia | exact R].
Qed.

Lemma rnd_idem (x : Q) : rnd (rnd x) = rnd x.
Proof.
  destruct (rnd_repr x) as (m & e & He & Hm & R).
  apply rnd_canon. rewrite (rnd_comp _ _ R), (rnd_fix m e He Hm), R. reflexivity.
Qed.

Lemma u64_pos : 0 < u64.
Proof. reflexivity. Qed.

Lemma eta64_pos : 0 < eta64.
Proof. reflexivity. Qed.

Lemma tiny64_pos : 0 < tiny64.
Proof. reflexivity. Qed.

Lemma eta64_tiny : eta64 == u64 * tiny64.
Proof. reflexivity. Qed.

Lemma rnd_error (x : Q) : Qabs (rnd x - x) <= u64 * Qabs x + eta64.
Proof.
  pose proof u64_pos as U. pose proof eta64_pos as H.
  destruct (Qeq_dec x 0) as [Z0 | NZ].
  { rewrite (rnd_zero x Z0), Z0. change (Qabs (0 - 0)) with 0. change (Qabs 0) with 0. lra. }
  assert (HA : 0 < Qabs x).
  { apply Qabs_case; intros A; destruct (Qeq_dec x 0); try contradiction; lra. }
  destruct (binade_spec _ HA) as [B1 _].
  rewrite rnd_eq. pose proof (round_at_near (ulp_exp x) x) as N.
  unfold ulp_exp in *. set (k := binade (Qabs x)) in *.
  destruct (Z.le_gt_cases (k - 52) (-1074)) as [L | G].
  - rewrite Z.max_r in * by exact L.
    assert (E : 2 ^ (-1074) * (1 # 2) == eta64) by reflexivity.
    rewrite E in N. nra.
  - rewrite Z.max_l in * by lia.
    assert (E : 2 ^ (k - 52) * (1 # 2) == u64 * 2 ^ k).
    { replace (k - 52)%Z with (k + -52)%Z by lia.
      rewrite pow2_plus, <- Qmult_assoc.
      assert (C : 2 ^ (-52) * (1 # 2) == u64) by reflexivity.
      rewrite C. apply Qmult_comm. }
    rewrite E in N.
    assert (u64 * 2 ^ k <= u64 * Qabs x) by (apply Qmult_le_l; [exact U | exact B1]).
    lra.
Qed.

Lemma rnd_Z (z : Z) : (Z.abs z <= 2 ^ 53)%Z -> rnd (inject_Z z) = inject_Z z.
Proof.
  intros H.
  assert (E : rnd (inject_Z z) == inject_Z z).
  { destruct (Z.eq_dec (Z.abs z) (2 ^ 53)) as [A | NA].
    - assert (z = 2 ^ 53 \/ z = - 2 ^ 53)%Z as [-> | ->] by lia; vm_compute; reflexivity.
    - assert (F : inject_Z z == inject_Z z * 2 ^ 0) by (change (2 ^ 0) with 1; ring).
      rewrite (rnd_comp _ _ F), rnd_fix by lia. symmetry. exact F. }
  unfold rnd in *. rewrite Qred_correct in E.
  rewrite (Qred_complete _ _ E). apply Qcanon.Qred_identity.
  simpl. apply Z.gcd_1_r.
Qed.

Lemma fadd_0_l (x : Q) : fadd 0 (rnd x) = rnd x.
Proof.
  unfold fadd. rewrite (rnd_comp (0 + rnd x) (rnd x)) by ring. apply rnd_idem.
Qed.


(** ** Accumulated rounding errors

    [approx k v r A]: the computed [v] stands for the exact [r], of
    magnitude at most [A], after at most [k] nested roundings: the error
    is at most [((1 + u64)^k - 1) * A]. *)

Lemma Qmult_le_l_weak (x y z : Q) : 0 <= z -> x <= y -> z * x <= z * y.
Proof.
  intros Hz H. rewrite (Qmult_comm z x), (Qmult_comm z y).
  apply Qmult_le_compat_r; assumption.
Qed.

Lemma growth_ge_1 (k : nat) : 1 <= growth k.
Proof.
  unfold growth. induction k as [|k IH].
  - apply Qle_refl.
  - rewrite Nat2Z.inj_succ, <- Z.add_1_r, Qpower_plus by (unfold u64; discriminate).
    change ((1 + u64) ^ 1) with (1 + u64). pose proof u64_pos. nra.
Qed.

Lemma growth_succ (k : nat) : growth (S k) == (1 + u64) * growth k.
Proof.
  unfold growth.
  rewrite Nat2Z.inj_succ, <- Z.add_1_r, Qpower_plus by (unfold u64; discriminate).
  change ((1 + u64) ^ 1) with (1 + u64). ring.
Qed.


Lemma approx_exact (v A : Q) : Qabs v <= A -> approx 0 v v A.
Proof.
  intros H. split; [exact H|].
  setoid_replace (v - v) with 0 by ring. change (Qabs 0) with 0.
  unfold growth. change ((1 + u64) ^ Z.of_nat 0) with 1.
  setoid_replace ((1 - 1) * A) with 0 by ring. apply Qle_refl.
Qed.



Lemma approx_rnd (k : nat) (v r A : Q) :
  approx k v r A -> approx (S k) (rnd v) r (A + tiny64).
Proof.
  intros [H1 H2]. pose proof u64_pos as U. pose proof tiny64_pos as T.
  split; [lra|].
  pose proof (rnd_error v) as E. rewrite eta64_tiny in E.
  pose proof (growth_ge_1 k) as G. rewrite growth_succ.
  assert (Hv : Qabs v <= A + (growth k - 1) * A).
  { setoid_replace v with (r + (v - r)) by ring.
    eapply Qle_trans; [apply Qabs_triangle|]. lra. }
  assert (Ht : Qabs (rnd v - r) <= Qabs (rnd v - v) + Qabs (v - r)).
  { setoid_replace (rnd v - r) with ((rnd v - v) + (v - r)) by ring.
    apply Qabs_triangle. }
  pose proof (Qabs_nonneg r) as HS.
  assert (HA : 0 <= A) by lra.
  set (e := (growth k - 1) * A) in *.
  assert (He : 0 <= e) by (unfold e; nra).
  assert (Hu : u64 * Qabs v <= u64 * (A + e)) by (apply Qmult_le_l; [exact U | exact Hv]).
  apply Qle_trans with (u64 * (A + e) + u64 * tiny64 + e); [lra|].
  assert (P : 0 <= (growth k - 1) * ((1 + u64) * tiny64)).
  { apply Qmult_le_0_compat; [lra|]. apply Qmult_le_0_compat; lra. }
  setoid_replace (((1 + u64) * growth k - 1) * (A + tiny64))
    with (u64 * (A + e) + u64 * tiny64 + e + (growth k - 1) * ((1 + u64) * tiny64))
    by (unfold e; ring).
  lra.
Qed.


Lemma approx_scale (k : nat) (g v r A : Q) :
  approx k v r A -> approx k (g * v) (g * r) (Qabs g * A).
Proof.
  intros [H1 H2]. pose proof (Qabs_nonneg g) as G. split.
  - rewrite Qabs_Qmult. apply Qmult_le_l_weak; assumption.
  - setoid_replace (g * v - g * r) with (g * (v - r)) by ring.
    rewrite Qabs_Qmult.
    setoid_replace ((growth k - 1) * (Qabs g * A))
      with (Qabs g * ((growth k - 1) * A)) by ring.
    apply Qmult_le_l_weak; assumption.
Qed.


Lemma approx_fmul (x y : Q) : approx 1 (fmul x y) (x * y) (Qabs (x * y) + tiny64).
Proof. apply approx_rnd, approx_exact, Qle_refl. Qed.

Lemma approx_fmul_l (k : nat) (g v r A : Q) :
  approx k v r A -> approx (S k) (fmul g v) (g * r) (Qabs g * A + tiny64).
Proof. intros H. apply approx_rnd, approx_scale, H. Qed.


(** ** Sequences and indexing *)

Lemma bind_Some {A B : Type} (m : option A) (k : A -> option B) (y : B) :
  bind m k = Some y -> exists x, m = Some x /\ k x = Some y.
Proof.
  destruct m as [x|]; simpl; intros E; [exists x; auto | discriminate].
Qed.

Lemma py_index_nat (n : nat) (i : Z) :
  (0 <= i < Z.of_nat n)%Z -> py_index n i = Some (Z.to_nat i).
Proof.
  intros [H0 H1]. unfold py_index.
  destruct (Z.leb_spec 0 i); [|lia].
  destruct (Z.ltb_spec i (Z.of_nat n)); [reflexivity|lia].
Qed.

Lemma getitem_nat {A : Type} (l : list A) (i : Z) :
  (0 <= i < Z.of_nat (length l))%Z -> getitem l i = nth_error l (Z.to_nat i).
Proof.
  intros H. unfold getitem. rewrite (py_index_nat _ _ H). reflexivity.
Qed.

Lemma setitem_nat {A : Type} (l : list A) (i : Z) (v : A) :
  (0 <= i < Z.of_nat (length l))%Z -> setitem l i v = Some (upd l (Z.to_nat i) v).
Proof.
  intros H. unfold setitem. rewrite (py_index_nat _ _ H). reflexivity.
Qed.

Lemma length_upd {A : Type} (l : list A) (k : nat) (v : A) :
  length (upd l k v) = length l.
Proof.
  revert k; induction l as [|x l IH]; intros [|k]; simpl; auto.
Qed.

Lemma nth_error_upd_eq {A : Type} (l : list A) (k : nat) (v : A) :
  (k < length l)%nat -> nth_error (upd l k v) k = Some v.
Proof.
  revert k; induction l as [|x l IH]; intros [|k]; simpl; intros H;
    try lia; auto. apply IH; lia.
Qed.

Lemma nth_error_upd_ne {A : Type} (l : list A) (k j : nat) (v : A) :
  k <> j -> nth_error (upd l k v) j = nth_error l j.
Proof.
  revert k j; induction l as [|x l IH]; intros [|k] [|j]; simpl; intros H;
    auto; try congruence.
Qed.

Lemma length_range (n : Z) : length (range n) = Z.to_nat n.
Proof. unfold range. now rewrite length_map, length_seq. Qed.

Lemma in_range (n x : Z) : In x (range n) <-> (0 <= x < n)%Z.
Proof.
  unfold range. rewrite in_map_iff. split.
  - intros (k & <- & Hk). apply in_seq in Hk. lia.
  - intros H. exists (Z.to_nat x). split; [lia|]. apply in_seq. lia.
Qed.

Lemma range_succ (n : Z) :
  (0 <= n)%Z -> range (n + 1) = range n ++ [n].
Proof.
  intros H. unfold range.
  replace (Z.to_nat (n + 1)) with (Z.to_nat n + 1)%nat by lia.
  rewrite seq_app, map_app. simpl. now rewrite Z2Nat.id.
Qed.

Lemma length_range2 (lo hi : Z) : length (range2 lo hi) = Z.to_nat (hi - lo).
Proof. unfold range2. now rewrite length_map, length_seq. Qed.

(** ** Transition formula and the environment *)

Lemma scan_demand_lower (u : Q) (l : list Q) (i d : Z) :
  scan_demand u l i = Some d -> (i <= d)%Z.
Proof.
  revert i; induction l as [|x l IH]; simpl; intros i E; [discriminate|].
  destruct (Qlt_le_dec x u).
  - apply IH in E. lia.
  - inversion E. lia.
Qed.

Lemma SimuDemand_nonneg (pdem : list Q) (u : Q) (d : Z) :
  SimuDemand pdem u = Some d -> (0 <= d)%Z.
Proof. apply scan_demand_lower. Qed.

(** C6. For a stock [s] in [[0,M]], any integer action [a] (also outside
    [[0,M]]) and a demand [d] in [[0,M]], [nextstate] lies in [[0,M]]; no
    action is rejected, and the stock stored by the environment after a
    [step] call lies in [[0,M]]. *)
Theorem nextstate_in_range (s a d M : Z) :
  (0 <= s <= M)%Z -> (0 <= d <= M)%Z ->
  (0 <= nextstate s a d M <= M)%Z /\
  (forall self u res,
      state self = s -> Stock_Capacity self = M ->
      step self a u = Some res ->
      (0 <= state (fst res) <= M)%Z /\ fst (fst (fst (snd res))) = state (fst res)).
Proof.
  intros Hs Hd. split.
  - unfold nextstate. lia.
  - intros self u res Es EM E. unfold step in E.
    apply bind_Some in E as (dem & Ed & E).
    apply SimuDemand_nonneg in Ed.
    inversion E; subst res; clear E. simpl.
    rewrite Es, EM. unfold nextstate. split; [lia | reflexivity].
Qed.

Lemma nextstate_in_range_witness :
  (0 <= nextstate 3 (-7) 2 5 <= 5)%Z /\
  (0 <= nextstate 3 40 2 5 <= 5)%Z /\
  exists res,
    step (StoreManagement_init 5 (3#10) (1#2) (3#10) 1 [1#2; 1#2; 0; 0; 0; 0] 3)
         40 (3#4) = Some res /\
    (0 <= state (fst res) <= 5)%Z.
Proof.
  split; [|split].
  - apply (nextstate_in_range 3 (-7) 2 5); lia.
  - apply (nextstate_in_range 3 40 2 5); lia.
  - eexists. split; [vm_compute; reflexivity|].
    apply (proj2 (nextstate_in_range 3 40 2 5 ltac:(lia) ltac:(lia))
             (StoreManagement_init 5 (3#10) (1#2) (3#10) 1
                                   [1#2; 1#2; 0; 0; 0; 0] 3)
             (3#4) _ eq_refl eq_refl).
    vm_compute; reflexivity.
Defined.

(** C1. A [step(a)] call that observes demand [d] returns
    [(next_stock, reward, False, {})] with
    [reward = -c*a - h*s + p*min(M,d,s+a)], less [c0] exactly when [a > 0],
    and [next_stock = max(0, min(M,s+a) - d)]; the stored stock becomes
    [next_stock]. *)
Theorem step_returns (self : StoreManagement) (a d : Z) (u : Q) :
  let s := state self in
  let M := Stock_Capacity self in
  let c := Order_Cost self in
  let c0 := Delivery_Cost self in
  let h := Maintenance_Cost self in
  let p := Selling_Price self in
  (0 <= s <= M)%Z ->
  SimuDemand (Demand_Distribution self) u = Some d ->
  exists self' reward,
    step self a u
      = Some (self', (Z.max 0 (Z.min M (s + a) - d), reward, false, [])) /\
    state self' = Z.max 0 (Z.min M (s + a) - d) /\
    ((0 < a)%Z ->
       reward = - c * inject_Z a - h * inject_Z s
                + p * inject_Z (Z.min (Z.min M d) (s + a)) - c0) /\
    (~ (0 < a)%Z ->
       reward = - c * inject_Z a - h * inject_Z s
                + p * inject_Z (Z.min (Z.min M d) (s + a))).
Proof.
  intros s M c c0 h p Hs Hd. unfold step. rewrite Hd. simpl.
  eexists. eexists. split; [reflexivity|]. split; [reflexivity|].
  unfold nextreward, min3. fold s M c c0 h p.
  destruct (Z.ltb_spec 0 a); split; intros; try lia; reflexivity.
Qed.

Lemma step_returns_witness :
  exists self' reward,
    step (StoreManagement_init 5 (3#10) (1#2) (3#10) 1 [1#2; 1#2; 0; 0; 0; 0] 3)
         2 (3#4)
      = Some (self', (4%Z, reward, false, [])) /\
    state self' = 4%Z.
Proof.
  destruct (step_returns
              (StoreManagement_init 5 (3#10) (1#2) (3#10) 1 [1#2; 1#2; 0; 0; 0; 0] 3)
              2 1 (3#4)) as (self' & reward & E & Es & _).
  - simpl. lia.
  - reflexivity.
  - exists self', reward. split; [exact E | exact Es].
Defined.

(** C9 (as stated): after [reset(initial_stock)] the step counter is zero.
    It is not: the counter is set to [-1]. *)
Lemma reset_counter_not_zero :
  ~ (let self := StoreManagement_init 1 (3#10) (1#2) (3#10) 1 [1#10; 9#10] 1 in
     state (fst (reset self 0)) = 0%Z /\
     curr_step (fst (reset self 0)) = 0%Z).
Proof. simpl. intros [_ H]. discriminate H. Qed.

(** C9 (amended). [reset(initial_stock)] stores [initial_stock] as the
    stock, sets the step counter to [-1] (the next [step] call brings it to
    0), leaves the parameters alone and returns no value. *)
Theorem reset_sets_stock (self : StoreManagement) (InitialStock : Z) (a : Z) (u : Q) :
  let self' := fst (reset self InitialStock) in
  state self' = InitialStock /\
  curr_step self' = (-1)%Z /\
  snd (reset self InitialStock) = tt /\
  Stock_Capacity self' = Stock_Capacity self /\
  Demand_Distribution self' = Demand_Distribution self /\
  (forall res, step self' a u = Some res -> curr_step (fst res) = 0%Z).
Proof.
  simpl. repeat split; try reflexivity.
  intros res E. unfold step in E. apply bind_Some in E as (d & _ & E).
  inversion E. reflexivity.
Qed.

(** ** Sums *)

Lemma sumQ_app (l1 l2 : list Q) : sumQ (l1 ++ l2) == sumQ l1 + sumQ l2.
Proof.
  induction l1 as [|x l1 IH]; simpl; [ring|]. rewrite IH. ring.
Qed.

Lemma sumQ_nonneg (l : list Q) : Forall (fun x => 0 <= x) l -> 0 <= sumQ l.
Proof.
  induction 1 as [|x l Hx _ IH]; simpl in *; [apply Qle_refl | lra].
Qed.

Lemma sumQ_map_ext {A : Type} (f g : A -> Q) (l : list A) :
  (forall x, In x l -> f x == g x) -> sumQ (map f l) == sumQ (map g l).
Proof.
  induction l as [|x l IH]; simpl; intros H; [reflexivity|].
  rewrite (H x (or_introl eq_refl)), IH; [reflexivity|].
  intros y Hy. apply H. now right.
Qed.

Lemma sumQ_map_plus {A : Type} (f g : A -> Q) (l : list A) :
  sumQ (map (fun x => f x + g x) l) == sumQ (map f l) + sumQ (map g l).
Proof.
  induction l as [|x l IH]; simpl; [ring|]. rewrite IH. ring.
Qed.

Lemma sumQ_map_zero {A : Type} (l : list A) : sumQ (map (fun _ => 0) l) == 0.
Proof.
  induction l as [|x l IH]; simpl; [reflexivity|]. rewrite IH. ring.
Qed.

Lemma sumQ_all_zero {A : Type} (f : A -> Q) (l : list A) :
  (forall x, In x l -> f x == 0) -> sumQ (map f l) == 0.
Proof.
  intros H. rewrite (sumQ_map_ext f (fun _ => 0) l H). apply sumQ_map_zero.
Qed.

Lemma sumQ_swap {A B : Type} (f : A -> B -> Q) (la : list A) (lb : list B) :
  sumQ (map (fun x => sumQ (map (fun y => f x y) lb)) la)
  == sumQ (map (fun y => sumQ (map (fun x => f x y) la)) lb).
Proof.
  induction la as [|x la IH]; simpl.
  - now rewrite sumQ_map_zero.
  - rewrite IH. now rewrite <- sumQ_map_plus.
Qed.

(** ** Demand distribution *)

Lemma nth_error_range (n : Z) (k : nat) :
  (Z.of_nat k < n)%Z -> nth_error (range n) k = Some (Z.of_nat k).
Proof.
  intros H. unfold range. rewrite nth_error_map.
  rewrite nth_error_seq.
  destruct (Nat.ltb_spec k (Z.to_nat n)); [reflexivity|lia].
Qed.






(** ** Demand sampler *)

Lemma length_cumsum_from (acc : Q) (l : list Q) :
  length (cumsum_from acc l) = length l.
Proof. revert acc; induction l as [|x l IH]; intros acc; simpl; auto. Qed.

(** Entry [j] of the cumulative sums is the float sum of the entries up to
    [j], accumulated from left to right; the last one is the float sum of
    the whole array. *)
Lemma nth_error_cumsum_from (acc : Q) (l : list Q) (j : nat) :
  (j < length l)%nat ->
  nth_error (cumsum_from acc l) j = Some (fold_left fadd (firstn (S j) l) acc).
Proof.
  revert acc j; induction l as [|x l IH]; intros acc j Hj; [simpl in Hj; lia|].
  destruct j as [|j].
  - destruct l; reflexivity.
  - cbn [cumsum_from nth_error]. rewrite IH by (simpl in Hj; lia). reflexivity.
Qed.

Lemma cumsum_from_last (acc : Q) (l : list Q) :
  l <> [] -> In (fold_left fadd l acc) (cumsum_from acc l).
Proof.
  intros Hl. destruct l as [|x l]; [congruence|].
  assert (H : nth_error (cumsum_from acc (x :: l)) (length l)
              = Some (fold_left fadd (firstn (S (length l)) (x :: l)) acc))
    by (apply nth_error_cumsum_from; simpl; lia).
  change (S (length l)) with (length (x :: l)) in H. rewrite firstn_all in H.
  eapply nth_error_In, H.
Qed.

(** The scan stops at the first entry that is not below [u]. *)
Lemma scan_demand_first (u : Q) (l : list Q) (i : Z) :
  (exists c, In c l /\ u <= c) ->
  exists k : nat,
    scan_demand u l i = Some (i + Z.of_nat k)%Z /\
    (k < length l)%nat /\
    (exists c, nth_error l k = Some c /\ u <= c) /\
    (forall j c, (j < k)%nat -> nth_error l j = Some c -> c < u).
Proof.
  revert i; induction l as [|x l IH]; intros i (c & Hc & Hu); [destruct Hc|].
  simpl. destruct (Qlt_le_dec x u) as [Hlt|Hle].
  - destruct Hc as [-> | Hc]; [lra|].
    destruct (IH (i + 1)%Z) as (k & E & Hk & Hat & Hbelow); [now exists c|].
    exists (S k). split; [rewrite E; f_equal; lia|].
    split; [simpl; lia|]. split; [exact Hat|].
    intros [|j] cj Hj Ej; simpl in Ej.
    + inversion Ej; subst; exact Hlt.
    + apply (Hbelow j); [lia | exact Ej].
  - exists O. split; [f_equal; lia|]. split; [simpl; lia|].
    split; [exists x; auto|]. intros j cj Hj. lia.
Qed.



(** C7 (as stated). [lossy_pmf] is an array of non-negative floats
    summing to 1 and [largest_draw] a float in [[0,1)], yet the sampler
    runs off the end of the cumulative sums: [IndexError]. *)
Lemma SimuDemand_raises_on_pmf :
  Forall is_float lossy_pmf /\
  Forall (fun x => 0 <= x) lossy_pmf /\
  sumQ lossy_pmf == 1 /\
  is_float largest_draw /\ 0 <= largest_draw /\ largest_draw < 1 /\
  SimuDemand lossy_pmf largest_draw = None.
Proof.
  split; [repeat constructor; vm_compute; reflexivity|].
  split; [repeat constructor; discriminate|].
  split; [vm_compute; reflexivity|].
  split; [vm_compute; reflexivity|].
  split; [discriminate|].
  split; vm_compute; reflexivity.
Qed.



(** The sampler returns whenever the draw is at most the float sum of the
    array. *)
Lemma SimuDemand_returns (pdem : list Q) (u : Q) :
  pdem <> [] -> u <= fsum_seq pdem ->
  exists d, SimuDemand pdem u = Some d /\ (0 <= d < Z.of_nat (length pdem))%Z.
Proof.
  intros Hne Hu.
  destruct (scan_demand_first u (cumsum pdem) 0%Z) as (k & E & Hk & _).
  { exists (fsum_seq pdem). split; [apply cumsum_from_last, Hne | exact Hu]. }
  unfold cumsum in Hk. rewrite length_cumsum_from in Hk.
  exists (Z.of_nat k). split; [exact E | lia].
Qed.

(** ** Loops *)

Lemma for_each_app {S : Type} (l1 l2 : list Z) (body : Z -> S -> option S) (st : S) :
  for_each (l1 ++ l2) body st
  = (st' <- for_each l1 body st ;; for_each l2 body st').
Proof.
  revert st; induction l1 as [|x l1 IH]; intros st; simpl; [reflexivity|].
  destruct (body x st); simpl; auto.
Qed.

(** A loop over [range(n)] with an invariant indexed by the number of
    iterations done. *)
Lemma for_each_range_invariant {St : Type} (Inv : Z -> St -> Prop)
    (body : Z -> St -> option St) (n : Z) (st : St) :
  (0 <= n)%Z -> Inv 0%Z st ->
  (forall k s, (0 <= k < n)%Z -> Inv k s ->
     exists s', body k s = Some s' /\ Inv (k + 1)%Z s') ->
  exists st', for_each (range n) body st = Some st' /\ Inv n st'.
Proof.
  intros Hn H0 Hbody.
  assert (G : forall m : nat, (Z.of_nat m <= n)%Z ->
            exists st', for_each (range (Z.of_nat m)) body st = Some st' /\
                        Inv (Z.of_nat m) st').
  { induction m as [|m IH]; intros Hm.
    - exists st. split; [reflexivity | exact H0].
    - destruct IH as (s & E & Hs); [lia|].
      replace (Z.of_nat (S m)) with (Z.of_nat m + 1)%Z by lia.
      rewrite range_succ by lia. rewrite for_each_app, E. simpl.
      destruct (Hbody (Z.of_nat m) s) as (s' & -> & Hs'); [lia | exact Hs |].
      now exists s'. }
  destruct (G (Z.to_nat n)) as (st' & E & Hst'); [lia|].
  rewrite Z2Nat.id in E, Hst' by lia. now exists st'.
Qed.

(** ** Simulated trajectories *)

Lemma zeros_eq (n : Z) : (0 <= n)%Z -> zeros n = Some (repeat 0 (Z.to_nat n)).
Proof.
  intros H. unfold zeros. destruct (Z.ltb_spec n 0); [lia | reflexivity].
Qed.

Lemma nth_error_repeat_Some {A : Type} (x : A) (n k : nat) :
  (k < n)%nat -> nth_error (repeat x n) k = Some x.
Proof.
  revert k; induction n as [|n IH]; intros [|k] H; simpl; try lia; auto.
  apply IH. lia.
Qed.

Lemma float_of_Z_exact (z : Z) :
  (Z.abs z <= 2 ^ 53)%Z -> float_of_Z z = Some (inject_Z z).
Proof.
  intros H. unfold float_of_Z. rewrite (rnd_Z z H).
  destruct (Qle_bool (2 ^ 1024) (Qabs (inject_Z z))) eqn:B; [|reflexivity].
  exfalso. apply Qle_bool_iff in B.
  assert (A : Qabs (inject_Z z) <= inject_Z (2 ^ 53)).
  { apply Qabs_Qle_condition. rewrite <- inject_Z_opp, <- !Zle_Qle. lia. }
  assert (C : inject_Z (2 ^ 53) < 2 ^ 1024) by (vm_compute; reflexivity).
  lra.
Qed.

Section Trajectory.

Variable M : Z.
Variables h c c0 p : Q.
Variable pdem : list Q.
Variable T : Z.
Variable Pi : Z -> Z -> option Z.
Variable s1 : Z.
Variable us : Z -> Q.

(** The stocks are exactly representable, every draw is at most the last
    cumulative float sum of [pdem] (so that no sampler call raises), and
    the policy returns on the stocks it is called on. *)
Hypothesis M_range : (0 <= M <= 2 ^ 53)%Z.
Hypothesis s1_range : (Z.abs s1 <= 2 ^ 53)%Z.
Hypothesis pdem_ne : pdem <> [].
Hypothesis T_nonneg : (0 <= T)%Z.
Hypothesis us_ok : forall t, (0 <= t < T)%Z -> us t <= fsum_seq pdem.
Hypothesis Pi_ok : forall t s, (0 <= t < T)%Z -> s = s1 \/ (0 <= s <= M)%Z ->
                               exists a, Pi t s = Some a.

Lemma trajectory_body_inv (t : Z) (st : list Q * list Q * StoreManagement) :
  (0 <= t < T)%Z -> trajectory_inv M pdem T s1 t st ->
  exists st', SimulateTrajectory_body Pi us t st = Some st' /\
              trajectory_inv M pdem T s1 (t + 1) st'.
Proof.
  intros Ht. destruct st as [[States Rewards] env].
  intros (HlS & HlR & Hd & HM & Hz & H0 & Hs & Hr).
  assert (Hst : state env = s1 \/ (0 <= state env <= M)%Z).
  { destruct (Z.eq_dec t 0) as [E | NE]; [left; apply Hs, E | right; apply Hr; lia]. }
  unfold SimulateTrajectory_body.
  rewrite float_of_Z_exact by (destruct Hst as [-> | Hst]; lia).
  cbn [bind]. rewrite setitem_nat by lia. cbn [bind].
  destruct (Pi_ok t (state env) Ht Hst) as (a & Ea). rewrite Ea. cbn [bind].
  destruct (SimuDemand_returns pdem (us t) pdem_ne (us_ok t Ht)) as (d & Ed & _).
  pose proof (SimuDemand_nonneg _ _ _ Ed) as Hd0.
  unfold step. rewrite Hd, Ed. simpl.
  rewrite setitem_nat by lia. simpl.
  eexists. split; [reflexivity|].
  unfold trajectory_inv. rewrite !length_upd.
  split; [exact HlS|]. split; [exact HlR|]. split; [exact Hd|].
  split; [exact HM|]. split; [|split; [|split]].
  - intros j Hj. destruct (Hz j ltac:(lia)) as [ES ER].
    rewrite getitem_nat in ES, ER by lia.
    rewrite !getitem_nat by (rewrite length_upd; lia).
    rewrite !nth_error_upd_ne by lia. auto.
  - intros _. rewrite getitem_nat by (rewrite length_upd; lia).
    destruct (Z.eq_dec t 0) as [->|Hne].
    + rewrite nth_error_upd_eq by (simpl; lia). now rewrite Hs.
    + rewrite nth_error_upd_ne by lia.
      rewrite <- getitem_nat by lia. apply H0. lia.
  - intros E. lia.
  - intros _. cbn [state set_state]. rewrite HM. unfold nextstate. lia.
Qed.

Lemma trajectory_loop (n : Z) st0 :
  (0 <= n <= T)%Z -> trajectory_inv M pdem T s1 0 st0 ->
  exists st, for_each (range n) (SimulateTrajectory_body Pi us) st0
             = Some st /\ trajectory_inv M pdem T s1 n st.
Proof.
  intros Hn H0.
  apply (for_each_range_invariant (trajectory_inv M pdem T s1)); [lia | exact H0 |].
  intros t st Ht Hst. apply trajectory_body_inv; [lia | exact Hst].
Qed.

(** C10. When no call made by [SimulateTrajectory(T,Pi,s1)] raises (the
    policy returns, and every draw is at most the last cumulative float
    sum of [pdem]), it returns two arrays of length [T+1]; after the
    iterations [t < n] every entry of index [>= n] still holds its
    initial 0, so indices [0..T-1] are the only ones written;
    [States[0] = s1] when [T > 0] (for a stock that a float holds
    exactly); [States[T]] and [Rewards[T]] are 0. *)
Theorem SimulateTrajectory_last_entries :
  exists States Rewards,
    SimulateTrajectory M h c c0 p pdem T Pi s1 us = Some (States, Rewards) /\
    Z.of_nat (length States) = (T + 1)%Z /\
    Z.of_nat (length Rewards) = (T + 1)%Z /\
    ((0 < T)%Z -> getitem States 0 = Some (inject_Z s1)) /\
    getitem States T = Some 0 /\
    getitem Rewards T = Some 0 /\
    (forall n, (0 <= n <= T)%Z ->
       exists St Rw env,
         for_each (range n) (SimulateTrajectory_body Pi us)
                  (repeat 0 (Z.to_nat (T + 1)), repeat 0 (Z.to_nat (T + 1)),
                   StoreManagement_init M h c c0 p pdem s1)
         = Some (St, Rw, env) /\
         forall j, (n <= j <= T)%Z ->
           getitem St j = Some 0 /\ getitem Rw j = Some 0).
Proof.
  set (st0 := (repeat 0 (Z.to_nat (T + 1)), repeat 0 (Z.to_nat (T + 1)),
               StoreManagement_init M h c c0 p pdem s1)).
  assert (H0 : trajectory_inv M pdem T s1 0 st0).
  { unfold st0, trajectory_inv. rewrite !repeat_length.
    split; [lia|]. split; [lia|]. split; [reflexivity|]. split; [reflexivity|].
    split; [|split; [lia | split; [reflexivity | lia]]].
    intros j Hj. rewrite getitem_nat by (rewrite repeat_length; lia).
    rewrite nth_error_repeat_Some by lia. auto. }
  destruct (trajectory_loop T st0) as (st & E & Hst); [lia | exact H0 |].
  destruct st as [[States Rewards] env].
  destruct Hst as (HlS & HlR & _ & _ & Hz & Hfirst & _).
  exists States, Rewards.
  split.
  { unfold SimulateTrajectory. rewrite zeros_eq by lia. simpl.
    fold st0. rewrite E. reflexivity. }
  split; [exact HlS|]. split; [exact HlR|]. split; [exact Hfirst|].
  split; [apply (Hz T); lia|]. split; [apply (Hz T); lia|].
  intros n Hn.
  destruct (trajectory_loop n st0) as (st' & E' & Hst'); [lia | exact H0 |].
  destruct st' as [[St Rw] env'].
  exists St, Rw, env'. split; [exact E'|].
  destruct Hst' as (_ & _ & _ & _ & Hz' & _). exact Hz'.
Qed.

End Trajectory.

Lemma SimulateTrajectory_last_entries_witness :
  exists States Rewards,
    SimulateTrajectory 2 (3#10) (1#2) (3#10) 1 [1#8; 1#8; 3#4]
                       3 (fun t s => PiUniform 2 s 0) 1 (fun _ => 1#2)
    = Some (States, Rewards) /\
    getitem States 3 = Some 0 /\ getitem Rewards 3 = Some 0.
Proof.
  destruct (SimulateTrajectory_last_entries 2 (3#10) (1#2) (3#10) 1
              [1#8; 1#8; 3#4] 3 (fun t s => PiUniform 2 s 0) 1
              (fun _ => 1#2))
    as (States & Rewards & E & _ & _ & _ & HS & HR & _).
  - lia.
  - vm_compute. discriminate.
  - discriminate.
  - lia.
  - intros t _. vm_compute. discriminate.
  - intros t s _ Hs. exists s.
    assert (Hr : (0 <= s <= 2)%Z) by (destruct Hs as [-> | Hs]; lia).
    assert (s = 0 \/ s = 1 \/ s = 2)%Z as [-> | [-> | ->]] by lia; reflexivity.
  - exists States, Rewards. auto.
Defined.

(** ** Arrays *)

Lemma getitem_total {A : Type} (l : list A) (i : Z) :
  (0 <= i < Z.of_nat (length l))%Z -> exists x, getitem l i = Some x.
Proof.
  intros H. rewrite getitem_nat by exact H.
  destruct (nth_error l (Z.to_nat i)) as [x|] eqn:E; [now exists x|].
  apply nth_error_None in E. lia.
Qed.

Lemma getitem_Forall {A : Type} (P : A -> Prop) (l : list A) (i : Z) (x : A) :
  Forall P l -> getitem l i = Some x -> P x.
Proof.
  intros HP E. unfold getitem in E. apply bind_Some in E as (k & _ & E).
  apply nth_error_In in E. rewrite Forall_forall in HP. now apply HP.
Qed.

Lemma Forall_upd {A : Type} (P : A -> Prop) (l : list A) (k : nat) (v : A) :
  Forall P l -> P v -> Forall P (upd l k v).
Proof.
  intros Hl Hv. revert k. induction Hl as [|x l Hx Hl IH]; intros [|k]; simpl;
    constructor; auto.
Qed.

Lemma getitem_setitem {A : Type} (l l' : list A) (i j : Z) (v : A) :
  (0 <= i < Z.of_nat (length l))%Z -> (0 <= j < Z.of_nat (length l))%Z ->
  setitem l i v = Some l' ->
  getitem l' j = if (j =? i)%Z then Some v else getitem l j.
Proof.
  intros Hi Hj E. rewrite setitem_nat in E by exact Hi. inversion E; subst l'.
  rewrite !getitem_nat by (rewrite ?length_upd; lia).
  destruct (Z.eqb_spec j i) as [->|Hne].
  - apply nth_error_upd_eq. lia.
  - apply nth_error_upd_ne. lia.
Qed.

Lemma setitem2_spec (n m : Z) (A : list (list Q)) (i j : Z) (v : Q) :
  shape2 n m A -> (0 <= i < n)%Z -> (0 <= j < m)%Z ->
  exists A',
    setitem2 A i j v = Some A' /\ shape2 n m A' /\
    forall i' j', (0 <= i' < n)%Z -> (0 <= j' < m)%Z ->
      getitem2 A' i' j'
      = if ((i' =? i) && (j' =? j))%Z then Some v else getitem2 A i' j'.
Proof.
  intros [Hn Hrows] Hi Hj. unfold setitem2.
  destruct (getitem_total A i) as (r & Er); [lia|]. rewrite Er. simpl.
  assert (Hr : shape1 m r) by (eapply getitem_Forall; eauto).
  unfold shape1 in Hr.
  rewrite (setitem_nat r) by lia. simpl.
  rewrite (setitem_nat A) by lia.
  eexists. split; [reflexivity|]. split.
  - split; [rewrite length_upd; exact Hn|].
    apply Forall_upd; [exact Hrows|]. unfold shape1. now rewrite length_upd.
  - intros i' j' Hi' Hj'. unfold getitem2.
    rewrite (getitem_setitem A _ i i' (upd r (Z.to_nat j) v)); try lia.
    2: { apply setitem_nat. lia. }
    destruct (Z.eqb_spec i' i) as [->|Hne]; simpl.
    + rewrite Er. simpl.
      rewrite (getitem_setitem r _ j j' v); try lia.
      2: { apply setitem_nat. lia. }
      reflexivity.
    + reflexivity.
Qed.

Lemma getitem2_total (n m : Z) (A : list (list Q)) (i j : Z) :
  shape2 n m A -> (0 <= i < n)%Z -> (0 <= j < m)%Z ->
  getitem2 A i j = Some (at2 A i j).
Proof.
  intros [Hn Hrows] Hi Hj. unfold at2, getitem2.
  destruct (getitem_total A i) as (r & Er); [lia|]. rewrite Er. simpl.
  assert (Hr : shape1 m r) by (eapply getitem_Forall; eauto).
  destruct (getitem_total r j) as (x & Ex); [unfold shape1 in Hr; lia|].
  now rewrite Ex.
Qed.

Lemma getitem_at1 (v : list Q) (i : Z) :
  (0 <= i < Z.of_nat (length v))%Z -> getitem v i = Some (at1 v i).
Proof.
  intros H. unfold at1. destruct (getitem_total v i H) as (x & ->). reflexivity.
Qed.

Lemma setitem3_spec (n m k : Z) (T : list (list (list Q))) (i j l : Z) (v : Q) :
  shape3 n m k T -> (0 <= i < n)%Z -> (0 <= j < m)%Z -> (0 <= l < k)%Z ->
  exists T',
    setitem3 T i j l v = Some T' /\ shape3 n m k T' /\
    forall i' j' l', (0 <= i' < n)%Z -> (0 <= j' < m)%Z -> (0 <= l' < k)%Z ->
      getitem3 T' i' j' l'
      = if ((i' =? i) && (j' =? j) && (l' =? l))%Z then Some v
        else getitem3 T i' j' l'.
Proof.
  intros [Hn Hmats] Hi Hj Hl. unfold setitem3.
  destruct (getitem_total T i) as (A & EA); [lia|]. rewrite EA. simpl.
  assert (HA : shape2 m k A) by (eapply getitem_Forall; eauto).
  destruct (setitem2_spec m k A j l v HA Hj Hl) as (A' & EA' & HA' & Hget).
  rewrite EA'. simpl. rewrite (setitem_nat T) by lia.
  eexists. split; [reflexivity|]. split.
  - split; [rewrite length_upd; exact Hn|]. now apply Forall_upd.
  - intros i' j' l' Hi' Hj' Hl'. unfold getitem3.
    rewrite (getitem_setitem T _ i i' A'); try lia.
    2: { apply setitem_nat. lia. }
    destruct (Z.eqb_spec i' i) as [->|Hne]; simpl.
    + rewrite EA. simpl. now apply Hget.
    + reflexivity.
Qed.

Lemma getitem3_total (n m k : Z) (T : list (list (list Q))) (i j l : Z) :
  shape3 n m k T -> (0 <= i < n)%Z -> (0 <= j < m)%Z -> (0 <= l < k)%Z ->
  getitem3 T i j l = Some (at3 T i j l).
Proof.
  intros [Hn Hmats] Hi Hj Hl. unfold at3, getitem3.
  destruct (getitem_total T i) as (A & EA); [lia|]. rewrite EA. simpl.
  assert (HA : shape2 m k A) by (eapply getitem_Forall; eauto).
  now rewrite (getitem2_total m k A j l HA Hj Hl).
Qed.

Lemma zeros2_eq (n m : Z) :
  (0 <= n)%Z -> (0 <= m)%Z ->
  exists A, zeros2 n m = Some A /\ shape2 n m A /\
            forall i j, (0 <= i < n)%Z -> (0 <= j < m)%Z -> at2 A i j = 0.
Proof.
  intros Hn Hm. unfold zeros2. rewrite zeros_eq by exact Hm. simpl.
  destruct (Z.ltb_spec n 0); [lia|].
  eexists. split; [reflexivity|].
  assert (Hs : shape2 n m (repeat (repeat 0 (Z.to_nat m)) (Z.to_nat n))).
  { split; [rewrite repeat_length; lia|].
    apply Forall_forall. intros r Hr. apply repeat_spec in Hr. subst r.
    unfold shape1. rewrite repeat_length. lia. }
  split; [exact Hs|].
  intros i j Hi Hj. unfold at2, getitem2.
  rewrite getitem_nat by (rewrite repeat_length; lia).
  rewrite nth_error_repeat_Some by lia. simpl.
  rewrite getitem_nat by (rewrite repeat_length; lia).
  now rewrite nth_error_repeat_Some by lia.
Qed.

Lemma zeros3_eq (n m k : Z) :
  (0 <= n)%Z -> (0 <= m)%Z -> (0 <= k)%Z ->
  exists T, zeros3 n m k = Some T /\ shape3 n m k T /\
            forall i j l, (0 <= i < n)%Z -> (0 <= j < m)%Z -> (0 <= l < k)%Z ->
                          at3 T i j l = 0.
Proof.
  intros Hn Hm Hk. unfold zeros3.
  destruct (zeros2_eq m k Hm Hk) as (A & -> & HA & Hz). simpl.
  destruct (Z.ltb_spec n 0); [lia|].
  eexists. split; [reflexivity|]. split.
  - split; [rewrite repeat_length; lia|].
    apply Forall_forall. intros r Hr. apply repeat_spec in Hr. now subst r.
  - intros i j l Hi Hj Hl. unfold at3, getitem3.
    rewrite getitem_nat by (rewrite repeat_length; lia).
    rewrite nth_error_repeat_Some by lia. simpl.
    specialize (Hz j l Hj Hl). unfold at2 in Hz. exact Hz.
Qed.

(** A loop that adds [g x] to each tracked quantity [val i] at iteration
    [x] ends with [val i] increased by the sum of the [g x]. *)
Lemma for_each_accumulate {S I : Type} (Inv : S -> Prop) (R : I -> Prop)
    (val : I -> S -> Q) (g : I -> Z -> Q) (P : Z -> Prop)
    (body : Z -> S -> option S) (l : list Z) (st : S) :
  (forall x s, P x -> Inv s ->
     exists s', body x s = Some s' /\ Inv s' /\
                forall i, R i -> val i s' == val i s + g i x) ->
  Forall P l -> Inv st ->
  exists st', for_each l body st = Some st' /\ Inv st' /\
              forall i, R i -> val i st' == val i st + sumQ (map (g i) l).
Proof.
  intros Hbody Hl. revert st.
  induction Hl as [|x l Hx Hl IH]; intros st Hst; simpl.
  - exists st. split; [reflexivity|]. split; [exact Hst|]. intros i _. ring.
  - destruct (Hbody x st Hx Hst) as (s' & -> & Hs' & Hv). simpl.
    destruct (IH s' Hs') as (st' & E & Hst' & Hv').
    exists st'. split; [exact E|]. split; [exact Hst'|].
    intros i Hi. rewrite (Hv' i Hi), (Hv i Hi). ring.
Qed.

Lemma Forall_range (n : Z) : Forall (fun x => (0 <= x < n)%Z) (range n).
Proof. apply Forall_forall. intros x Hx. now apply in_range. Qed.

(** A sum with at most one non-zero term. *)
Lemma sumQ_single (f : Z -> Q) (n : nat) (x : Z) :
  (0 <= x < Z.of_nat n)%Z ->
  (forall y, (0 <= y < Z.of_nat n)%Z -> y <> x -> f y == 0) ->
  sumQ (map f (range (Z.of_nat n))) == f x.
Proof.
  induction n as [|n IH]; intros Hx Hz; [lia|].
  replace (Z.of_nat (S n)) with (Z.of_nat n + 1)%Z in * by lia.
  rewrite range_succ by lia. rewrite map_app, sumQ_app. simpl.
  destruct (Z.eq_dec x (Z.of_nat n)) as [->|Hne].
  - rewrite (sumQ_map_ext f (fun _ => 0)).
    + rewrite sumQ_map_zero. ring.
    + intros y Hy. apply in_range in Hy. apply Hz; lia.
  - rewrite IH; [|lia|intros; apply Hz; lia].
    rewrite (Hz (Z.of_nat n)) by lia. ring.
Qed.

Lemma sumQ_single_range (f : Z -> Q) (n x : Z) :
  (0 <= x < n)%Z ->
  (forall y, (0 <= y < n)%Z -> y <> x -> f y == 0) ->
  sumQ (map f (range n)) == f x.
Proof.
  intros Hx Hz. rewrite <- (Z2Nat.id n) by lia.
  apply sumQ_single; rewrite Z2Nat.id by lia; assumption.
Qed.

Lemma map_at1_range (v : list Q) :
  map (at1 v) (range (Z.of_nat (length v))) = v.
Proof.
  apply nth_error_ext. intros k.
  rewrite nth_error_map.
  destruct (Nat.ltb_spec k (length v)) as [Hk|Hk].
  - rewrite nth_error_range by lia. simpl. unfold at1.
    rewrite getitem_nat by lia. rewrite Nat2Z.id.
    destruct (nth_error v k) eqn:E; [reflexivity|].
    apply nth_error_None in E. lia.
  - replace (nth_error v k) with (@None Q) by (symmetry; apply nth_error_None; lia).
    replace (nth_error (range (Z.of_nat (length v))) k) with (@None Z); [reflexivity|].
    symmetry. apply nth_error_None. rewrite length_range. lia.
Qed.

(** ** The transition and reward kernels *)

Section Kernel.

Variable M : Z.
Variables h c c0 p : Q.
Variable pdem : list Q.

Hypothesis M_nonneg : (0 <= M)%Z.
Hypothesis pdem_length : Z.of_nat (length pdem) = (M + 1)%Z.

Let kernel_state : Type := (list (list (list Q)) * list (list Q))%type.

Let kernel_inv (st : kernel_state) : Prop :=
  shape3 (M + 1) (M + 1) (M + 1) (fst st) /\ shape2 (M + 1) (M + 1) (snd st).

Let in_dom (i : Z * Z * Z) : Prop :=
  let '(s, ns, a) := i in
  (0 <= s <= M)%Z /\ (0 <= ns <= M)%Z /\ (0 <= a <= M)%Z.

(** The two quantities followed through the loops: [K[s,ns,a]] and
    [avgR[s,a]]. *)
Let val (i : Z * Z * Z) (st : kernel_state) : Q * Q :=
  let '(s, ns, a) := i in (at3 (fst st) s ns a, at2 (snd st) s a).

Let gK (i : Z * Z * Z) (a s d : Z) : Q :=
  let '(s', ns', a') := i in
  if ((s' =? s) && (ns' =? nextstate s a d M) && (a' =? a))%Z
  then at1 pdem d else 0.

Let gR (i : Z * Z * Z) (a s d : Z) : Q :=
  let '(s', _, a') := i in
  if ((s' =? s) && (a' =? a))%Z
  then at1 pdem d * nextreward s a d M c c0 h p else 0.

Lemma kernel_body_adds (a s d : Z) (st : kernel_state) :
  (0 <= a < M + 1)%Z -> (0 <= s < M + 1)%Z -> (0 <= d < M + 1)%Z ->
  kernel_inv st ->
  exists st', kernel_body M h c c0 p pdem a s d st = Some st' /\
              kernel_inv st' /\
              (forall i, in_dom i ->
                 fst (val i st') == fst (val i st) + gK i a s d) /\
              (forall i, in_dom i ->
                 snd (val i st') == snd (val i st) + gR i a s d).
Proof.
  intros Ha Hs Hd. destruct st as [K avgR]. intros [HK HR]. simpl in HK, HR.
  unfold kernel_body.
  change (Z.max 0 (Z.min M (s + a) - d)) with (nextstate s a d M).
  set (ns := nextstate s a d M).
  assert (Hns : (0 <= ns < M + 1)%Z) by (unfold ns, nextstate; lia).
  rewrite getitem_at1 by lia. simpl.
  rewrite (getitem3_total _ _ _ K s ns a HK) by lia. simpl.
  destruct (setitem3_spec _ _ _ K s ns a (at3 K s ns a + at1 pdem d) HK)
    as (K' & -> & HK' & HgetK); try lia. simpl.
  rewrite (getitem2_total _ _ avgR s a HR) by lia. simpl.
  match goal with
  | |- context [setitem2 avgR s a ?v] =>
      destruct (setitem2_spec _ _ avgR s a v HR) as (R' & -> & HR' & HgetR);
        try lia
  end.
  simpl. eexists. split; [reflexivity|]. split; [split; assumption|].
  split.
  - intros [[s' ns'] a'] (Hs' & Hns' & Ha'). unfold val, gK. simpl. fold ns.
    unfold at3 at 1. rewrite HgetK by lia.
    destruct ((s' =? s) && (ns' =? ns) && (a' =? a))%Z eqn:E.
    + apply andb_prop in E as [E Ea]. apply andb_prop in E as [Es En].
      apply Z.eqb_eq in Ea, Es, En. subst s' ns' a'. reflexivity.
    + fold (at3 K s' ns' a'). ring.
  - intros [[s' ns'] a'] (Hs' & Hns' & Ha'). unfold val, gR. simpl.
    unfold at2 at 1. rewrite HgetR by lia.
    destruct ((s' =? s) && (a' =? a))%Z eqn:E.
    + apply andb_prop in E as [Es Ea].
      apply Z.eqb_eq in Ea, Es. subst s' a'. unfold nextreward. reflexivity.
    + fold (at2 avgR s' a'). ring.
Qed.

(** Both families under one index: [(true, i)] follows [K], [(false, i)]
    follows [avgR]. *)
Let tracked (bi : bool * (Z * Z * Z)) (st : kernel_state) : Q :=
  if fst bi then fst (val (snd bi) st) else snd (val (snd bi) st).

Let incr (a s : Z) (bi : bool * (Z * Z * Z)) (d : Z) : Q :=
  if fst bi then gK (snd bi) a s d else gR (snd bi) a s d.

Let tracked_dom (bi : bool * (Z * Z * Z)) : Prop := in_dom (snd bi).

Lemma kernel_demand_loop (a s : Z) (st : kernel_state) :
  (0 <= a < M + 1)%Z -> (0 <= s < M + 1)%Z -> kernel_inv st ->
  exists st',
    for_each (range (M + 1)) (fun d => kernel_body M h c c0 p pdem a s d) st
    = Some st' /\ kernel_inv st' /\
    forall bi, tracked_dom bi ->
      tracked bi st' == tracked bi st + sumQ (map (incr a s bi) (range (M + 1))).
Proof.
  intros Ha Hs Hst.
  apply (for_each_accumulate kernel_inv tracked_dom tracked (incr a s)
           (fun d => (0 <= d < M + 1)%Z)); [| apply Forall_range | exact Hst].
  intros d st1 Hd Hst1.
  destruct (kernel_body_adds a s d st1 Ha Hs Hd Hst1) as (st2 & E & H2 & HK & HR).
  exists st2. split; [exact E|]. split; [exact H2|].
  intros [[|] i] Hi; unfold tracked, incr; simpl; [apply HK | apply HR]; exact Hi.
Qed.

Lemma kernel_state_loop (a : Z) (st : kernel_state) :
  (0 <= a < M + 1)%Z -> kernel_inv st ->
  exists st',
    for_each (range (M + 1))
      (fun s => for_each (range (M + 1))
                  (fun d => kernel_body M h c c0 p pdem a s d)) st
    = Some st' /\ kernel_inv st' /\
    forall bi, tracked_dom bi ->
      tracked bi st'
      == tracked bi st
         + sumQ (map (fun s => sumQ (map (incr a s bi) (range (M + 1))))
                     (range (M + 1))).
Proof.
  intros Ha Hst.
  apply (for_each_accumulate kernel_inv tracked_dom tracked
           (fun bi s => sumQ (map (incr a s bi) (range (M + 1))))
           (fun s => (0 <= s < M + 1)%Z)); [| apply Forall_range | exact Hst].
  intros s st1 Hs Hst1. now apply kernel_demand_loop.
Qed.

Lemma kernel_action_loop (st : kernel_state) :
  kernel_inv st ->
  exists st',
    for_each (range (M + 1))
      (fun a => for_each (range (M + 1))
         (fun s => for_each (range (M + 1))
                     (fun d => kernel_body M h c c0 p pdem a s d))) st
    = Some st' /\ kernel_inv st' /\
    forall bi, tracked_dom bi ->
      tracked bi st'
      == tracked bi st
         + sumQ (map (fun a =>
                   sumQ (map (fun s => sumQ (map (incr a s bi) (range (M + 1))))
                             (range (M + 1))))
                 (range (M + 1))).
Proof.
  intros Hst.
  apply (for_each_accumulate kernel_inv tracked_dom tracked
           (fun bi a =>
              sumQ (map (fun s => sumQ (map (incr a s bi) (range (M + 1))))
                        (range (M + 1))))
           (fun a => (0 <= a < M + 1)%Z)); [| apply Forall_range | exact Hst].
  intros a st1 Ha Hst1. now apply kernel_state_loop.
Qed.

(** Only the iterations with [a = a'] and [s = s'] contribute to the
    entry of index [(s', ns', a')]. *)
Lemma kernel_sum_collapse (b : bool) (s' ns' a' : Z) :
  in_dom (s', ns', a') ->
  sumQ (map (fun a =>
          sumQ (map (fun s => sumQ (map (incr a s (b, (s', ns', a')))
                                        (range (M + 1))))
                    (range (M + 1))))
        (range (M + 1)))
  == sumQ (map (incr a' s' (b, (s', ns', a'))) (range (M + 1))).
Proof.
  intros (Hs & Hns & Ha).
  rewrite (sumQ_single_range _ (M + 1) a') by
    (try lia; intros a Ha' Hne;
     apply sumQ_all_zero; intros s _; apply sumQ_all_zero; intros d _;
     unfold incr, gK, gR; simpl;
     replace (a' =? a)%Z with false by (symmetry; apply Z.eqb_neq; lia);
     rewrite ?andb_false_r; now destruct b).
  rewrite (sumQ_single_range _ (M + 1) s') by
    (try lia; intros s Hs' Hne;
     apply sumQ_all_zero; intros d _;
     unfold incr, gK, gR; simpl;
     replace (s' =? s)%Z with false by (symmetry; apply Z.eqb_neq; lia);
     simpl; now destruct b).
  reflexivity.
Qed.

(** The cell computing [K] and [avgR] runs without error and leaves in
    each entry the corresponding sum over the demand. *)
Lemma build_kernel_entries :
  exists K avgR,
    build_kernel M h c c0 p pdem = Some (K, avgR) /\
    shape3 (M + 1) (M + 1) (M + 1) K /\
    shape2 (M + 1) (M + 1) avgR /\
    forall s ns a, (0 <= s <= M)%Z -> (0 <= ns <= M)%Z -> (0 <= a <= M)%Z ->
      at3 K s ns a == transition_prob M pdem s ns a /\
      at2 avgR s a == mean_reward M h c c0 p pdem s a.
Proof.
  unfold build_kernel.
  destruct (zeros3_eq (M + 1) (M + 1) (M + 1)) as (K0 & -> & HK0 & HzK); try lia.
  destruct (zeros2_eq (M + 1) (M + 1)) as (R0 & -> & HR0 & HzR); try lia.
  simpl.
  destruct (kernel_action_loop (K0, R0)) as ([K avgR] & -> & [HK HR] & Hv).
  { split; assumption. }
  exists K, avgR. split; [reflexivity|]. split; [exact HK|]. split; [exact HR|].
  intros s ns a Hs Hns Ha. split.
  - pose proof (Hv (true, (s, ns, a)) (conj Hs (conj Hns Ha))) as E.
    rewrite kernel_sum_collapse in E by (repeat split; lia).
    unfold tracked, val in E. simpl in E. rewrite E, HzK by lia.
    unfold transition_prob. rewrite Qplus_0_l.
    apply sumQ_map_ext. intros d _. unfold incr, gK. simpl.
    rewrite !Z.eqb_refl. simpl. rewrite andb_true_r.
    now rewrite Z.eqb_sym.
  - pose proof (Hv (false, (s, ns, a)) (conj Hs (conj Hns Ha))) as E.
    rewrite kernel_sum_collapse in E by (repeat split; lia).
    unfold tracked, val in E. simpl in E. rewrite E, HzR by lia.
    unfold mean_reward. rewrite Qplus_0_l.
    apply sumQ_map_ext. intros d _. unfold incr, gR. simpl.
    rewrite !Z.eqb_refl. reflexivity.
Qed.

End Kernel.


Lemma comprehension_map {B : Type} (f : Z -> option B) (g : Z -> B) (l : list Z) :
  (forall x, In x l -> f x = Some (g x)) -> comprehension f l = Some (map g l).
Proof.
  induction l as [|x l IH]; intros H; simpl; [reflexivity|].
  rewrite (H x (or_introl eq_refl)). simpl.
  rewrite IH by (intros y Hy; apply H; now right). reflexivity.
Qed.

Lemma sumQ_at1_range (M : Z) (pdem : list Q) :
  Z.of_nat (length pdem) = (M + 1)%Z ->
  sumQ (map (at1 pdem) (range (M + 1))) == sumQ pdem.
Proof. intros <-. now rewrite map_at1_range. Qed.

Lemma at1_nonneg (v : list Q) (i : Z) :
  Forall (fun x => 0 <= x) v -> 0 <= at1 v i.
Proof.
  intros H. unfold at1. destruct (getitem v i) as [x|] eqn:E; [|apply Qle_refl].
  apply (getitem_Forall _ _ _ _ H E).
Qed.

Lemma transition_prob_nonneg (M : Z) (pdem : list Q) (s ns a : Z) :
  Forall (fun x => 0 <= x) pdem -> 0 <= transition_prob M pdem s ns a.
Proof.
  intros H. unfold transition_prob. apply sumQ_nonneg.
  apply Forall_forall. intros x Hx. apply in_map_iff in Hx as (d & <- & _).
  destruct (nextstate s a d M =? ns)%Z; [now apply at1_nonneg | apply Qle_refl].
Qed.

Lemma transition_prob_row_sum (M : Z) (pdem : list Q) (s a : Z) :
  (0 <= M)%Z -> Z.of_nat (length pdem) = (M + 1)%Z ->
  sumQ (map (fun ns => transition_prob M pdem s ns a) (range (M + 1)))
  == sumQ pdem.
Proof.
  intros HM Hlen. unfold transition_prob.
  rewrite (sumQ_swap
             (fun ns d => if (nextstate s a d M =? ns)%Z then at1 pdem d else 0)).
  rewrite <- (sumQ_at1_range M pdem Hlen).
  apply sumQ_map_ext. intros d Hd. apply in_range in Hd.
  rewrite (sumQ_single_range _ (M + 1) (nextstate s a d M)).
  - now rewrite Z.eqb_refl.
  - unfold nextstate. lia.
  - intros ns _ Hne.
    replace (nextstate s a d M =? ns)%Z with false
      by (symmetry; apply Z.eqb_neq; lia).
    reflexivity.
Qed.



(** ** [argmax] *)

Lemma argmax_from_spec (row : list Q) (l pre : list Q) (best : Q) (bi i : Z) :
  row = pre ++ l ->
  i = Z.of_nat (length pre) ->
  (0 <= bi < i)%Z ->
  nth_error row (Z.to_nat bi) = Some best ->
  (forall j x, (j < length pre)%nat -> nth_error row j = Some x -> x <= best) ->
  (forall j x, (j < Z.to_nat bi)%nat -> nth_error row j = Some x -> x < best) ->
  let r := argmax_from best bi i l in
  (0 <= r < Z.of_nat (length row))%Z /\
  exists m, nth_error row (Z.to_nat r) = Some m /\
            (forall j x, nth_error row j = Some x -> x <= m) /\
            (forall j x, (j < Z.to_nat r)%nat -> nth_error row j = Some x -> x < m).
Proof.
  revert pre best bi i. induction l as [|x l IH];
    intros pre best bi i Hrow Hi Hbi Hbest Hle Hlt; simpl.
  - rewrite app_nil_r in Hrow. subst row. split; [lia|].
    exists best. split; [exact Hbest|]. split; [|exact Hlt].
    intros j y Ej. apply (Hle j); [|exact Ej].
    apply nth_error_Some. congruence.
  - assert (Hx : nth_error row (length pre) = Some x).
    { subst row. rewrite nth_error_app2, Nat.sub_diag by lia. reflexivity. }
    assert (Hrow' : row = (pre ++ [x]) ++ l) by (rewrite <- app_assoc; exact Hrow).
    assert (Hi' : (i + 1)%Z = Z.of_nat (length (pre ++ [x])))
      by (rewrite length_app; simpl; lia).
    destruct (Qlt_le_dec best x) as [Hlt'|Hge].
    + apply (IH (pre ++ [x]) x i (i + 1)%Z Hrow' Hi'); [lia | | |].
      * subst i. now rewrite Nat2Z.id.
      * intros j y Hj Ej. rewrite length_app in Hj. simpl in Hj.
        destruct (Nat.eq_dec j (length pre)) as [->|Hne].
        -- rewrite Hx in Ej. inversion Ej. apply Qle_refl.
        -- apply Qle_trans with best; [apply (Hle j); [lia | exact Ej] | lra].
      * intros j y Hj Ej. subst i. rewrite Nat2Z.id in Hj.
        apply Qle_lt_trans with best; [apply (Hle j); [lia | exact Ej] | exact Hlt'].
    + apply (IH (pre ++ [x]) best bi (i + 1)%Z Hrow' Hi'); [lia | exact Hbest | | exact Hlt].
      intros j y Hj Ej. rewrite length_app in Hj. simpl in Hj.
      destruct (Nat.eq_dec j (length pre)) as [->|Hne].
      * rewrite Hx in Ej. inversion Ej; subst. exact Hge.
      * apply (Hle j); [lia | exact Ej].
Qed.

(** [np.argmax] returns the first index of the largest entry. *)
Lemma argmax_first_max (row : list Q) :
  row <> [] ->
  exists pi m,
    argmax row = Some pi /\
    (0 <= pi < Z.of_nat (length row))%Z /\
    getitem row pi = Some m /\
    (forall a y, (0 <= a < Z.of_nat (length row))%Z ->
       getitem row a = Some y -> y <= m /\ ((a < pi)%Z -> y < m)).
Proof.
  destruct row as [|x l]; [congruence|]. intros _.
  destruct (argmax_from_spec (x :: l) l [x] x 0%Z 1%Z)
    as (Hr & m & Em & Hmax & Hfirst); try reflexivity; try lia.
  - intros [|j] y Hj Ej; simpl in *; [|lia]. inversion Ej. apply Qle_refl.
  - exists (argmax_from x 0%Z 1%Z l), m. split; [reflexivity|].
    split; [exact Hr|]. split; [rewrite getitem_nat by exact Hr; exact Em|].
    intros a y Ha Ey. rewrite getitem_nat in Ey by exact Ha. split.
    + apply (Hmax _ _ Ey).
    + intros Hlt. apply (Hfirst (Z.to_nat a)); [lia | exact Ey].
Qed.

(** ** Greedy improvement *)

Section Improvement.

Variable M : Z.
Variable gamma : Q.
Variable K : list (list (list Q)).
Variable avgR : list (list Q).
Variable V : list Q.

Hypothesis M_nonneg : (0 <= M)%Z.
Hypothesis K_shape : shape3 (M + 1) (M + 1) (M + 1) K.
Hypothesis avgR_shape : shape2 (M + 1) (M + 1) avgR.
Hypothesis V_length : Z.of_nat (length V) = (M + 1)%Z.

Let Qf : Z -> Z -> Q := Qvalue_at M gamma K avgR V.

Lemma Qvalue_total (s a : Z) :
  (0 <= s <= M)%Z -> (0 <= a <= M)%Z ->
  Qvalue M gamma K avgR V s a = Some (Qf s a).
Proof.
  intros Hs Ha. unfold Qvalue.
  rewrite (getitem2_total _ _ avgR s a avgR_shape) by lia. simpl.
  rewrite (comprehension_map _ (fun ns => at3 K s ns a * at1 V ns)).
  - reflexivity.
  - intros ns Hns. apply in_range in Hns.
    rewrite (getitem3_total _ _ _ K s ns a K_shape) by lia. simpl.
    rewrite getitem_at1 by lia. reflexivity.
Qed.

(** The loop over [a] fills row [s] of the table. *)
Lemma Improve_row (s : Z) (Qt : list (list Q)) :
  (0 <= s <= M)%Z -> shape2 (M + 1) (M + 1) Qt ->
  exists Qt',
    for_each (range (M + 1))
      (fun a Qt => x <- Qvalue M gamma K avgR V s a ;; setitem2 Qt s a x) Qt
    = Some Qt' /\
    shape2 (M + 1) (M + 1) Qt' /\
    forall a, (0 <= a <= M)%Z -> getitem2 Qt' s a = Some (Qf s a).
Proof.
  intros Hs HQt.
  destruct (for_each_range_invariant
              (fun n Qt => shape2 (M + 1) (M + 1) Qt /\
                 forall a, (0 <= a < n)%Z -> getitem2 Qt s a = Some (Qf s a))
              (fun a Qt => x <- Qvalue M gamma K avgR V s a ;; setitem2 Qt s a x)
              (M + 1)%Z Qt) as (Qt' & E & HQt' & Hrow).
  - lia.
  - split; [exact HQt | intros; lia].
  - intros k Q1 Hk [HQ1 Hfilled].
    rewrite Qvalue_total by lia. simpl.
    destruct (setitem2_spec _ _ Q1 s k (Qf s k) HQ1) as (Q2 & -> & HQ2 & Hget);
      try lia.
    exists Q2. split; [reflexivity|]. split; [exact HQ2|].
    intros a Ha. rewrite Hget by lia. rewrite Z.eqb_refl. simpl.
    destruct (Z.eqb_spec a k) as [->|Hne]; [reflexivity|].
    apply Hfilled. lia.
  - exists Qt'. split; [exact E|]. split; [exact HQt'|].
    intros a Ha. apply Hrow. lia.
Qed.

Lemma Improve_body_greedy (s : Z) (Pi : list Z) (newV : list Q)
    (Qt : list (list Q)) :
  (0 <= s <= M)%Z ->
  Z.of_nat (length Pi) = (M + 1)%Z ->
  Z.of_nat (length newV) = (M + 1)%Z ->
  shape2 (M + 1) (M + 1) Qt ->
  exists Pi' newV' Qt',
    Improve_body M gamma K avgR V s (Pi, newV, Qt) = Some (Pi', newV', Qt') /\
    Z.of_nat (length Pi') = (M + 1)%Z /\
    Z.of_nat (length newV') = (M + 1)%Z /\
    shape2 (M + 1) (M + 1) Qt' /\
    greedy_at M Qf Pi' newV' s /\
    (forall s', (0 <= s' <= M)%Z -> s' <> s ->
       getitem Pi' s' = getitem Pi s' /\ getitem newV' s' = getitem newV s').
Proof.
  intros Hs HPi HnewV HQt. unfold Improve_body.
  destruct (Improve_row s Qt Hs HQt) as (Qt' & -> & HQt' & Hrow). simpl.
  destruct HQt' as [HlQ Hrows].
  destruct (getitem_total Qt' s) as (row & Erow); [lia|]. rewrite Erow. simpl.
  assert (Hlrow : Z.of_nat (length row) = (M + 1)%Z)
    by (apply (getitem_Forall _ _ _ _ Hrows Erow)).
  assert (Hget : forall a, (0 <= a <= M)%Z -> getitem row a = Some (Qf s a)).
  { intros a Ha. specialize (Hrow a Ha). unfold getitem2 in Hrow.
    rewrite Erow in Hrow. exact Hrow. }
  destruct (argmax_first_max row) as (pi & m & -> & Hpi & Em & Hmax).
  { intros ->. simpl in Hlrow. lia. }
  simpl. rewrite (setitem_nat Pi) by lia. simpl.
  unfold getitem2. rewrite Erow. simpl. rewrite Em. simpl.
  rewrite (setitem_nat newV) by lia. simpl.
  rewrite Hget in Em by lia. inversion Em as [Em']. clear Em.
  do 3 eexists. split; [reflexivity|].
  rewrite !length_upd. split; [exact HPi|]. split; [exact HnewV|].
  split; [split; assumption|]. split.
  - exists pi. split.
    { rewrite getitem_nat by (rewrite length_upd; lia).
      apply nth_error_upd_eq. lia. }
    split; [lia|]. split.
    { rewrite getitem_nat by (rewrite length_upd; lia).
      rewrite Em'. apply nth_error_upd_eq. lia. }
    intros a Ha. rewrite Em'. apply (Hmax a); [lia | now apply Hget].
  - intros s' Hs' Hne.
    rewrite !getitem_nat by (rewrite ?length_upd; lia).
    rewrite !nth_error_upd_ne by lia. auto.
Qed.

(** [Improve(V)] returns, for every state, the first maximiser of the
    row of the Q table and the maximum itself. *)
Lemma Improve_greedy_all :
  exists Pi newV,
    Improve M gamma K avgR V = Some (Pi, newV) /\
    Z.of_nat (length Pi) = (M + 1)%Z /\
    Z.of_nat (length newV) = (M + 1)%Z /\
    forall s, (0 <= s <= M)%Z -> greedy_at M Qf Pi newV s.
Proof.
  unfold Improve. rewrite zeros_eq by lia. simpl.
  destruct (zeros2_eq (M + 1) (M + 1)) as (Qt0 & -> & HQt0 & _); try lia.
  simpl.
  destruct (for_each_range_invariant
              (fun n (st : list Z * list Q * list (list Q)) =>
                 let '(Pi, newV, Qt) := st in
                 Z.of_nat (length Pi) = (M + 1)%Z /\
                 Z.of_nat (length newV) = (M + 1)%Z /\
                 shape2 (M + 1) (M + 1) Qt /\
                 forall s, (0 <= s < n)%Z -> greedy_at M Qf Pi newV s)
              (Improve_body M gamma K avgR V) (M + 1)%Z
              (map (fun _ => 0%Z) (repeat 0 (Z.to_nat (M + 1))),
               repeat 0 (Z.to_nat (M + 1)), Qt0))
    as ([[Pi newV] Qt] & E & HPi & HnewV & _ & Hgreedy).
  - lia.
  - rewrite length_map, !repeat_length.
    split; [lia|]. split; [lia|]. split; [exact HQt0|]. intros; lia.
  - intros k [[Pi1 newV1] Qt1] Hk (HPi1 & HnewV1 & HQt1 & Hdone).
    destruct (Improve_body_greedy k Pi1 newV1 Qt1)
      as (Pi2 & newV2 & Qt2 & -> & HPi2 & HnewV2 & HQt2 & Hk2 & Hsame);
      try assumption; try lia.
    exists (Pi2, newV2, Qt2). split; [reflexivity|].
    split; [exact HPi2|]. split; [exact HnewV2|]. split; [exact HQt2|].
    intros s Hs. destruct (Z.eq_dec s k) as [->|Hne]; [exact Hk2|].
    destruct (Hdone s) as (pi & EPi & Hpi & EV & Hmax); [lia|].
    destruct (Hsame s) as [E1 E2]; [lia | exact Hne |].
    exists pi. rewrite E1, E2. auto.
  - rewrite E. simpl. exists Pi, newV. split; [reflexivity|].
    split; [exact HPi|]. split; [exact HnewV|].
    intros s Hs. apply Hgreedy. lia.
Qed.


End Improvement.


(** ** Norms *)

Lemma supnorm_nonneg (x : list Q) : 0 <= supnorm x.
Proof.
  induction x as [|v x IH]; simpl; [apply Qle_refl|].
  apply Qle_trans with (supnorm x); [exact IH | apply Q.le_max_r].
Qed.

Lemma supnorm_ge (x : list Q) (v : Q) : In v x -> Qabs v <= supnorm x.
Proof.
  induction x as [|w x IH]; simpl; intros H; [destruct H|].
  destruct H as [->|H].
  - apply Q.le_max_l.
  - apply Qle_trans with (supnorm x); [now apply IH | apply Q.le_max_r].
Qed.

Lemma supnorm_le (x : list Q) (B : Q) :
  0 <= B -> (forall v, In v x -> Qabs v <= B) -> supnorm x <= B.
Proof.
  intros HB. induction x as [|w x IH]; simpl; intros H; [exact HB|].
  apply Q.max_lub; [apply H; now left | apply IH; intros; apply H; now right].
Qed.

Lemma nth_error_vsub (A B : list Q) (k : nat) :
  nth_error (vsub A B) k
  = match nth_error A k, nth_error B k with
    | Some a, Some b => Some (a - b)
    | _, _ => None
    end.
Proof.
  unfold vsub. revert B k. induction A as [|a A IH]; intros [|b B] [|k]; simpl;
    try reflexivity.
  - now destruct (nth_error A k).
  - apply IH.
Qed.

Lemma vsub_at1 (A B : list Q) (i : Z) :
  (0 <= i < Z.of_nat (length A))%Z -> length B = length A ->
  In (at1 A i - at1 B i) (vsub A B).
Proof.
  intros Hi Hl. apply (nth_error_In _ (Z.to_nat i)).
  rewrite nth_error_vsub. unfold at1.
  rewrite !getitem_nat by lia.
  destruct (nth_error A (Z.to_nat i)) eqn:EA;
    [|apply nth_error_None in EA; lia].
  destruct (nth_error B (Z.to_nat i)) eqn:EB;
    [|apply nth_error_None in EB; lia].
  reflexivity.
Qed.

Lemma In_vsub (A B : list Q) (v : Q) :
  In v (vsub A B) ->
  exists i, (0 <= i < Z.of_nat (length A))%Z /\
            (0 <= i < Z.of_nat (length B))%Z /\
            v = at1 A i - at1 B i.
Proof.
  intros H. apply In_nth_error in H as (k & E).
  rewrite nth_error_vsub in E.
  destruct (nth_error A k) as [a|] eqn:EA; [|discriminate].
  destruct (nth_error B k) as [b|] eqn:EB; [|discriminate].
  inversion E; subst v.
  assert (HA : (k < length A)%nat) by (apply nth_error_Some; congruence).
  assert (HB : (k < length B)%nat) by (apply nth_error_Some; congruence).
  exists (Z.of_nat k). split; [lia|]. split; [lia|].
  unfold at1. rewrite !getitem_nat by lia. rewrite Nat2Z.id.
  now rewrite EA, EB.
Qed.

Lemma sumQ_map_diff {A : Type} (w a b : A -> Q) (l : list A) :
  sumQ (map (fun i => w i * a i) l) - sumQ (map (fun i => w i * b i) l)
  == sumQ (map (fun i => w i * (a i - b i)) l).
Proof.
  induction l as [|x l IH]; simpl; [ring|]. rewrite <- IH. ring.
Qed.

(** A weighted sum of terms bounded by [D], with non-negative weights, is
    bounded by [D] times the total weight. *)
Lemma weighted_sum_bound {A : Type} (w x : A -> Q) (l : list A) (D : Q) :
  (forall i, In i l -> 0 <= w i) ->
  (forall i, In i l -> Qabs (x i) <= D) ->
  Qabs (sumQ (map (fun i => w i * x i) l)) <= D * sumQ (map w l).
Proof.
  induction l as [|i l IH]; intros Hw Hx; cbn [sumQ map].
  - rewrite Qmult_0_r. apply Qle_refl.
  - eapply Qle_trans; [apply Qabs_triangle|].
    assert (H1 : Qabs (w i * x i) <= D * w i).
    { pose proof (Hw i (or_introl eq_refl)) as Hwi.
      pose proof (Hx i (or_introl eq_refl)) as Hxi.
      apply Qabs_Qle_condition in Hxi. destruct Hxi as [Hlo Hhi].
      apply Qabs_Qle_condition. split; nra. }
    assert (H2 : Qabs (sumQ (map (fun i => w i * x i) l)) <= D * sumQ (map w l)).
    { apply IH; intros; [apply Hw | apply Hx]; now right. }
    lra.
Qed.

(** ** The improvement step as a contraction *)

Section Contraction.

Variable M : Z.
Variable gamma : Q.
Variable K : list (list (list Q)).
Variable avgR : list (list Q).

Hypothesis M_nonneg : (0 <= M)%Z.
Hypothesis K_shape : shape3 (M + 1) (M + 1) (M + 1) K.
Hypothesis avgR_shape : shape2 (M + 1) (M + 1) avgR.
Hypothesis K_stochastic : stochastic M K.
Hypothesis gamma_nonneg : 0 <= gamma.

Lemma Qvalue_at_lipschitz (V1 V2 : list Q) (s a : Z) :
  Z.of_nat (length V1) = (M + 1)%Z -> Z.of_nat (length V2) = (M + 1)%Z ->
  (0 <= s <= M)%Z -> (0 <= a <= M)%Z ->
  Qabs (Qvalue_at M gamma K avgR V1 s a - Qvalue_at M gamma K avgR V2 s a)
  <= gamma * supnorm (vsub V1 V2).
Proof.
  intros H1 H2 Hs Ha. destruct K_stochastic as [Kpos Ksum].
  unfold Qvalue_at.
  set (w := fun ns => at3 K s ns a).
  set (D := supnorm (vsub V1 V2)).
  assert (HD : Qabs (sumQ (map (fun ns => w ns * at1 V1 ns) (range (M + 1)))
                     - sumQ (map (fun ns => w ns * at1 V2 ns) (range (M + 1))))
               <= D).
  { rewrite sumQ_map_diff.
    eapply Qle_trans.
    - apply (weighted_sum_bound w (fun ns => at1 V1 ns - at1 V2 ns) _ D).
      + intros ns Hns. apply in_range in Hns. apply Kpos; lia.
      + intros ns Hns. apply in_range in Hns. apply supnorm_ge.
        apply vsub_at1; lia.
    - unfold w. rewrite (Ksum s a Hs Ha). rewrite Qmult_1_r. apply Qle_refl. }
  apply Qabs_Qle_condition in HD. destruct HD as [Hlo Hhi].
  apply Qabs_Qle_condition.
  change (fun ns => at3 K s ns a * at1 V1 ns) with (fun ns => w ns * at1 V1 ns).
  change (fun ns => at3 K s ns a * at1 V2 ns) with (fun ns => w ns * at1 V2 ns).
  split; nra.
Qed.

Lemma Improve_contraction (V1 V2 : list Q) :
  Z.of_nat (length V1) = (M + 1)%Z -> Z.of_nat (length V2) = (M + 1)%Z ->
  exists P1 N1 P2 N2,
    Improve M gamma K avgR V1 = Some (P1, N1) /\
    Improve M gamma K avgR V2 = Some (P2, N2) /\
    Z.of_nat (length N1) = (M + 1)%Z /\
    Z.of_nat (length N2) = (M + 1)%Z /\
    supnorm (vsub N1 N2) <= gamma * supnorm (vsub V1 V2).
Proof.
  intros H1 H2.
  destruct (Improve_greedy_all M gamma K avgR V1 M_nonneg K_shape avgR_shape H1)
    as (P1 & N1 & E1 & _ & HN1 & G1).
  destruct (Improve_greedy_all M gamma K avgR V2 M_nonneg K_shape avgR_shape H2)
    as (P2 & N2 & E2 & _ & HN2 & G2).
  exists P1, N1, P2, N2.
  split; [exact E1|]. split; [exact E2|]. split; [exact HN1|]. split; [exact HN2|].
  apply supnorm_le.
  - apply Qmult_le_0_compat; [exact gamma_nonneg | apply supnorm_nonneg].
  - intros v Hv. apply In_vsub in Hv as (i & Hi1 & Hi2 & ->).
    destruct (G1 i ltac:(lia)) as (pi1 & _ & Hpi1 & EN1 & Hmax1).
    destruct (G2 i ltac:(lia)) as (pi2 & _ & Hpi2 & EN2 & Hmax2).
    unfold at1. rewrite EN1, EN2.
    pose proof (Qvalue_at_lipschitz V1 V2 i pi1 H1 H2 ltac:(lia) Hpi1) as L1.
    pose proof (Qvalue_at_lipschitz V1 V2 i pi2 H1 H2 ltac:(lia) Hpi2) as L2.
    apply Qabs_Qle_condition in L1, L2.
    destruct (Hmax1 pi2 Hpi2) as [M1 _]. destruct (Hmax2 pi1 Hpi1) as [M2 _].
    apply Qabs_Qle_condition. split; lra.
Qed.

Lemma ValueIteration_body_contracts (V : list Q) (Pi : list Z)
    (newV : list Q) (nIt : Z) :
  gamma < 1 ->
  Z.of_nat (length newV) = (M + 1)%Z ->
  exists st1 st2,
    ValueIteration_body M gamma K avgR (V, Pi, newV, nIt) = Some st1 /\
    ValueIteration_body M gamma K avgR st1 = Some st2 /\
    sup_change st2 <= gamma * sup_change st1 /\
    sup_change st2 <= sup_change st1.
Proof.
  intros Hg Hl.
  destruct (Improve_greedy_all M gamma K avgR newV M_nonneg K_shape avgR_shape Hl)
    as (P1 & N1 & E1 & _ & HN1 & _).
  destruct (Improve_contraction newV N1 Hl HN1)
    as (P1' & N1' & P2 & N2 & E1' & E2 & _ & _ & Hc).
  rewrite E1 in E1'. inversion E1'; subst P1' N1'. clear E1'.
  exists (newV, P1, N1, (nIt + 1)%Z), (N1, P2, N2, (nIt + 1 + 1)%Z).
  split; [unfold ValueIteration_body; now rewrite E1|].
  split; [unfold ValueIteration_body; now rewrite E2|].
  unfold sup_change. split; [exact Hc|].
  pose proof (supnorm_nonneg (vsub newV N1)). nra.
Qed.

End Contraction.

Lemma build_kernel_stochastic (M : Z) (h c c0 p : Q) (pdem : list Q) :
  (0 <= M)%Z ->
  Z.of_nat (length pdem) = (M + 1)%Z ->
  Forall (fun x => 0 <= x) pdem ->
  sumQ pdem == 1 ->
  exists K avgR,
    build_kernel M h c c0 p pdem = Some (K, avgR) /\
    shape3 (M + 1) (M + 1) (M + 1) K /\
    shape2 (M + 1) (M + 1) avgR /\
    stochastic M K.
Proof.
  intros HM Hlen Hpos Hsum.
  destruct (build_kernel_entries M h c c0 p pdem HM Hlen)
    as (K & avgR & E & HK & HR & Hent).
  exists K, avgR. split; [exact E|]. split; [exact HK|]. split; [exact HR|].
  split.
  - intros s ns a Hs Hns Ha. destruct (Hent s ns a Hs Hns Ha) as [-> _].
    now apply transition_prob_nonneg.
  - intros s a Hs Ha.
    rewrite (sumQ_map_ext _ (fun ns => transition_prob M pdem s ns a)).
    + rewrite transition_prob_row_sum by assumption. exact Hsum.
    + intros ns Hns. apply in_range in Hns. apply Hent; lia.
Qed.




(** ** Q-learning: how many updates precede each report *)

(** Partial-correctness counterpart of [for_each_range_invariant]. *)
Lemma for_each_range_post {St : Type} (Inv : Z -> St -> Prop)
    (body : Z -> St -> option St) (n : Z) (st st' : St) :
  (0 <= n)%Z -> Inv 0%Z st ->
  (forall k s s', (0 <= k < n)%Z -> Inv k s -> body k s = Some s' ->
     Inv (k + 1)%Z s') ->
  for_each (range n) body st = Some st' -> Inv n st'.
Proof.
  intros Hn H0 Hbody.
  assert (G : forall m : nat, (Z.of_nat m <= n)%Z -> forall s,
            for_each (range (Z.of_nat m)) body st = Some s -> Inv (Z.of_nat m) s).
  { induction m as [|m IH]; intros Hm s E.
    - simpl in E. inversion E; subst. exact H0.
    - replace (Z.of_nat (S m)) with (Z.of_nat m + 1)%Z in * by lia.
      rewrite range_succ in E by lia. rewrite for_each_app in E.
      apply bind_Some in E as (s1 & E1 & E2). simpl in E2.
      apply bind_Some in E2 as (s2 & E2 & E3). inversion E3; subst s2.
      apply (Hbody (Z.of_nat m) s1 s); [lia | apply IH; [lia | exact E1] | exact E2]. }
  intros E. rewrite <- (Z2Nat.id n Hn). apply G; rewrite Z2Nat.id by lia; [lia | exact E].
Qed.

Section LearningFacts.

Variable M : Z.
Variables h c c0 p : Q.
Variable pdem : list Q.
Variable gamma : Q.
Variable pow_half : Q -> Q.
Variable rng : Z -> draws.

Let update := QLearning_update gamma pow_half rng.
Let updates := QLearning_updates gamma pow_half rng.

Lemma for_each_updates (l : list Z) (st : QLstate) :
  for_each l (fun _ st => update st) st = updates (length l) st.
Proof.
  revert st; induction l as [|x l IH]; intros st; simpl; [reflexivity|].
  unfold update at 1. destruct (QLearning_update gamma pow_half rng st); simpl; auto.
Qed.

Lemma updates_add (a b : nat) (st : QLstate) :
  updates (a + b) st = (st' <- updates a st ;; updates b st').
Proof.
  revert st; induction a as [|a IH]; intros st; simpl; [reflexivity|].
  destruct (QLearning_update gamma pow_half rng st); simpl; auto.
Qed.

Lemma update_counts (st st' : QLstate) :
  update st = Some st' -> ql_updates st' = (ql_updates st + 1)%Z.
Proof.
  unfold update, QLearning_update. intros E.
  repeat (apply bind_Some in E as (? & _ & E)).
  match type of E with
  | context [let (_, _) := ?r in _] => destruct r as [env [[[nS rew] dn] inf]]
  end.
  repeat (apply bind_Some in E as (? & _ & E)).
  inversion E. reflexivity.
Qed.

Lemma updates_count (n : nat) (st st' : QLstate) :
  updates n st = Some st' -> ql_updates st' = (ql_updates st + Z.of_nat n)%Z.
Proof.
  revert st; induction n as [|n IH]; intros st E; simpl in E.
  - inversion E. lia.
  - apply bind_Some in E as (s1 & E1 & E2).
    apply update_counts in E1. apply IH in E2. lia.
Qed.

Lemma updates_done_nonneg (L : list Z) (k : nat) : (0 <= updates_done L k)%Z.
Proof. induction k as [|k IH]; simpl; lia. Qed.

(** For strictly increasing landmarks the count is [k] short of the
    distance from the first landmark. *)
Lemma updates_done_increasing (L : list Z) (k : nat) :
  (forall j, (j < k)%nat -> (nth j L 0 < nth (S j) L 0)%Z) ->
  updates_done L k = (nth k L 0 - nth 0 L 0 - Z.of_nat k)%Z.
Proof.
  induction k as [|k IH]; intros H; cbn [updates_done]; [lia|].
  rewrite IH by (intros j Hj; apply H; lia).
  specialize (H k (Nat.lt_succ_diag_r k)). lia.
Qed.

Lemma getitem_nth (L : list Z) (k x : Z) :
  (0 <= k < Z.of_nat (length L))%Z ->
  getitem L k = Some x -> x = nth (Z.to_nat k) L 0%Z.
Proof.
  intros Hk E. rewrite getitem_nat in E by exact Hk.
  symmetry. now apply nth_error_nth.
Qed.

(** What holds when [k] segments are done: the state is the one reached
    by [updates_done Landmarks k] updates and each segment has printed one
    line, announcing its upper landmark. *)
Let segments_inv (L : list Z) (st0 : QLstate) (k : Z)
    (acc : QLstate * option (list Z) * list (Z * list Z)) : Prop :=
  let '(st, _, out) := acc in
  updates (Z.to_nat (updates_done L (Z.to_nat k))) st0 = Some st /\
  Z.of_nat (length out) = k /\
  forall j : nat, (j < length out)%nat ->
    exists stj Pij,
      updates (Z.to_nat (updates_done L (S j))) st0 = Some stj /\
      greedy M (ql_Q stj) = Some Pij /\
      nth_error out j = Some (nth (S j) L 0%Z, Pij).

Lemma QLearning_segment_inv (L : list Z) (st0 : QLstate) (k : Z) acc acc' :
  (0 <= k < Z.of_nat (length L) - 1)%Z ->
  segments_inv L st0 k acc ->
  QLearning_segment M gamma pow_half rng L k acc = Some acc' ->
  segments_inv L st0 (k + 1) acc'.
Proof.
  intros Hk. destruct acc as [[st Pi] out]. intros (Est & Hlen & Hout) E.
  unfold QLearning_segment in E.
  apply bind_Some in E as (lo & Elo & E).
  apply bind_Some in E as (hi & Ehi & E).
  apply bind_Some in E as (st' & Est' & E).
  apply bind_Some in E as (Pi' & EPi' & E).
  inversion E; subst acc'; clear E.
  apply getitem_nth in Elo; [|lia]. apply getitem_nth in Ehi; [|lia].
  fold update in Est'. rewrite for_each_updates, length_range2 in Est'.
  replace (Z.to_nat (k + 1)) with (S (Z.to_nat k)) in * by lia.
  assert (Edone : updates (Z.to_nat (updates_done L (S (Z.to_nat k)))) st0
                  = Some st').
  { cbn [updates_done]. rewrite <- Elo, <- Ehi.
    pose proof (updates_done_nonneg L (Z.to_nat k)).
    rewrite Z2Nat.inj_add by lia. rewrite updates_add, Est. simpl.
    rewrite Z2Nat.inj_max. simpl Z.to_nat at 1.
    rewrite Nat.max_0_l. exact Est'. }
  unfold segments_inv.
  replace (Z.to_nat (k + 1)) with (S (Z.to_nat k)) by lia.
  split; [exact Edone|].
  split; [rewrite length_app; simpl; lia|].
  intros j Hj. rewrite length_app in Hj. simpl in Hj.
  destruct (Nat.eq_dec j (length out)) as [->|Hne].
  - exists st', Pi'. replace (length out) with (Z.to_nat k) by lia.
    split; [exact Edone|]. split; [exact EPi'|].
    replace (Z.to_nat k) with (length out) by lia.
    rewrite nth_error_app2, Nat.sub_diag by lia. simpl.
    rewrite Ehi. repeat f_equal. lia.
  - destruct (Hout j) as (stj & Pij & E1 & E2 & E3); [lia|].
    exists stj, Pij. split; [exact E1|]. split; [exact E2|].
    rewrite nth_error_app1 by lia. exact E3.
Qed.

(** C8 (what the code does). [QLearning(Landmarks)] prints one line per
    landmark after the first; the line announcing [Landmarks[k+1]]
    carries the greedy policy of the Q table reached after
    [updates_done Landmarks (k+1)] Q-updates, the sum over the segments
    [j <= k] of [Landmarks[j+1] - Landmarks[j] - 1]: one update short per
    segment of the announced count. *)
Theorem QLearning_reports_after_updates_done (Landmarks : list Z)
    (Q0 : list (list Q)) (s0 : Z) (Pi : list Z) (Qf : list (list Q))
    (out : list (Z * list Z)) :
  QLearning M h c c0 p pdem gamma pow_half rng Landmarks Q0 s0
  = Some (Pi, Qf, out) ->
  exists st0,
    QLearning_init M h c c0 p pdem Q0 s0 = Some st0 /\
    Z.of_nat (length out) = (Z.of_nat (length Landmarks) - 1)%Z /\
    forall k : nat, (k < length out)%nat ->
      exists st Pik,
        QLearning_updates gamma pow_half rng
          (Z.to_nat (updates_done Landmarks (S k))) st0 = Some st /\
        ql_updates st = updates_done Landmarks (S k) /\
        greedy M (ql_Q st) = Some Pik /\
        nth_error out k = Some (nth (S k) Landmarks 0%Z, Pik).
Proof.
  intros E. unfold QLearning in E.
  apply bind_Some in E as (st0 & E0 & E).
  apply bind_Some in E as ([[st Pi'] out'] & Eloop & E).
  apply bind_Some in E as (Pi'' & EPi & E). inversion E; subst Pi'' Qf out'.
  clear E. subst Pi'.
  assert (Hn : (0 <= Z.of_nat (length Landmarks) - 1)%Z).
  { destruct (Z_lt_le_dec (Z.of_nat (length Landmarks) - 1) 0) as [Hneg|]; [|lia].
    unfold range in Eloop.
    replace (Z.to_nat (Z.of_nat (length Landmarks) - 1)) with O in Eloop by lia.
    simpl in Eloop. discriminate Eloop. }
  pose proof (for_each_range_post (segments_inv Landmarks st0)
                (QLearning_segment M gamma pow_half rng Landmarks)
                _ (st0, None, []) (st, Some Pi, out) Hn) as Hpost.
  destruct Hpost as (_ & Hlen & Hout); [| | exact Eloop |].
  - split; [reflexivity|]. split; [reflexivity|]. simpl. intros; lia.
  - intros k s s' Hk Hs Es. now apply (QLearning_segment_inv _ _ k s s').
  - exists st0. split; [exact E0|]. split; [exact Hlen|].
    intros k Hk. destruct (Hout k Hk) as (stk & Pik & E1 & E2 & E3).
    exists stk, Pik. split; [exact E1|]. split; [|split; assumption].
    apply updates_count in E1. rewrite E1.
    unfold QLearning_init in E0. apply bind_Some in E0 as (N & _ & E0).
    inversion E0. cbn [ql_updates].
    pose proof (updates_done_nonneg Landmarks (S k)). lia.
Qed.

End LearningFacts.


(** With the notebook's [Landmarks], the lines announcing 10^3, ..., 10^7
    iterations are printed after 999, ..., 9999995 updates. *)
Example notebook_landmarks_updates_done :
  map (updates_done [0; 1000; 10000; 100000; 1000000; 10000000]%Z)
      [1; 2; 3; 4; 5]%nat
  = [999; 9998; 99997; 999996; 9999995]%Z.
Proof. reflexivity. Qed.

Lemma QLearning_reports_after_updates_done_witness :
  exists Pi Qf out,
    QLearning 1 (3#10) (1#2) (3#10) 1 [1#10; 9#10] (97#100) newton_sqrt
              (fun _ => mkDraws 1 (1#2) (1#2)) [0; 2; 4]%Z [[1; 2]; [3; 4]] 0
    = Some (Pi, Qf, out) /\
    exists st Pik,
      QLearning_updates (97#100) newton_sqrt (fun _ => mkDraws 1 (1#2) (1#2))
        1 (mkQL [[1; 2]; [3; 4]] [[0; 0]; [0; 0]]
                (StoreManagement_init 1 (3#10) (1#2) (3#10) 1 [1#10; 9#10] 0) 0)
      = Some st /\
      ql_updates st = 1%Z /\
      nth_error out 0 = Some (2%Z, Pik).
Proof.
  assert (E : { res | QLearning 1 (3#10) (1#2) (3#10) 1 [1#10; 9#10] (97#100)
                        newton_sqrt (fun _ => mkDraws 1 (1#2) (1#2))
                        [0; 2; 4]%Z [[1; 2]; [3; 4]] 0 = Some res }).
  { eexists. vm_compute. reflexivity. }
  destruct E as [[[Pi Qf] out] E]. exists Pi, Qf, out. split; [exact E|].
  destruct (QLearning_reports_after_updates_done _ _ _ _ _ _ _ _ _ _ _ _ _ _ _ E)
    as (st0 & E0 & Hlen & H).
  vm_compute in E0. inversion E0; subst st0; clear E0.
  destruct (H 0%nat) as (st & Pik & E1 & E2 & _ & E3).
  - simpl in Hlen. lia.
  - exists st, Pik. split; [exact E1|]. split; [exact E2 | exact E3].
Defined.

(** * Further properties of the code *)

(** ** Sales, stock and reward *)

(** X1. Whatever the stock, the action and the demand, the units sold
    [min(M,d,s+a)] and the stock left [nextstate] add up to the stock after
    delivery [min(M,s+a)]; so the reward [step] returns is determined by
    the stock it returns. *)
Theorem step_reward_from_next_stock (self : StoreManagement) (a : Z) (u : Q)
    (self' : StoreManagement) (ns : Z) (rew : Q) (dn : bool) (inf : info) :
  step self a u = Some (self', (ns, rew, dn, inf)) ->
  let s := state self in
  let M := Stock_Capacity self in
  exists d,
    SimuDemand (Demand_Distribution self) u = Some d /\
    (ns + min3 M d (s + a) = Z.min M (s + a))%Z /\
    rew == - Order_Cost self * inject_Z a - Maintenance_Cost self * inject_Z s
           + Selling_Price self * inject_Z (Z.min M (s + a) - ns)
           - (if (0 <? a)%Z then Delivery_Cost self else 0).
Proof.
  intros E s M. unfold step in E. apply bind_Some in E as (d & Ed & E).
  inversion E; subst; clear E. exists d. split; [exact Ed|].
  assert (Hsum : (nextstate (state self) a d (Stock_Capacity self)
                  + min3 (Stock_Capacity self) d (state self + a)
                  = Z.min (Stock_Capacity self) (state self + a))%Z).
  { unfold nextstate, min3. lia. }
  split; [exact Hsum|].
  cbn [state set_state]. fold s M in Hsum |- *.
  replace (Z.min M (s + a) - nextstate s a d M)%Z with (min3 M d (s + a)) by lia.
  unfold nextreward. destruct (0 <? a)%Z; ring.
Qed.

Lemma step_reward_from_next_stock_witness :
  exists d,
    SimuDemand [1#2; 1#2; 0; 0; 0; 0] (3#4) = Some d /\
    (4 + min3 5 d (3 + 2) = Z.min 5 (3 + 2))%Z.
Proof.
  destruct (step_reward_from_next_stock
              (StoreManagement_init 5 (3#10) (1#2) (3#10) 1 [1#2; 1#2; 0; 0; 0; 0] 3)
              2 (3#4)
              (set_state
                 (StoreManagement_init 5 (3#10) (1#2) (3#10) 1
                                       [1#2; 1#2; 0; 0; 0; 0] 3) 0 4)
              4 (- (1#2) * inject_Z 2 - (3#10) * inject_Z 3
                 + 1 * inject_Z (min3 5 1 (3 + 2)) - (3#10)) false [])
    as (d & Ed & Hsum & _).
  - reflexivity.
  - exists d. split; [exact Ed | exact Hsum].
Defined.

(** ** The demand sampler: failure, monotonicity, support *)

Lemma scan_demand_None (u : Q) (l : list Q) (i : Z) :
  scan_demand u l i = None <-> Forall (fun c => c < u) l.
Proof.
  revert i; induction l as [|x l IH]; intros i; simpl.
  - split; [constructor | reflexivity].
  - destruct (Qlt_le_dec x u) as [Hlt|Hge].
    + rewrite IH. split; [now constructor | intros H; now inversion H].
    + split; [discriminate|]. intros H. inversion H; subst. lra.
Qed.

(** Adding a non-negative number to a float never gives less. *)
Lemma fadd_ge_l (a x : Q) : is_float a -> 0 <= x -> a <= fadd a x.
Proof.
  intros Ha Hx. unfold is_float in Ha. unfold fadd. rewrite <- Ha at 1.
  apply rnd_mono. lra.
Qed.

Lemma is_float_fadd (a x : Q) : is_float (fadd a x).
Proof. unfold is_float, fadd. apply rnd_idem. Qed.

Lemma fold_fadd_ge (acc : Q) (l : list Q) :
  is_float acc -> Forall (fun x => 0 <= x) l -> acc <= fold_left fadd l acc.
Proof.
  intros Ha H. revert acc Ha. induction H as [|x l Hx Hl IH]; intros acc Ha; simpl.
  - lra.
  - apply Qle_trans with (fadd acc x); [apply fadd_ge_l; assumption|].
    apply IH, is_float_fadd.
Qed.

(** For non-negative entries the cumulative float sums never decrease:
    each is at most the last. *)
Lemma cumsum_from_bounded (acc : Q) (l : list Q) :
  is_float acc -> Forall (fun x => 0 <= x) l ->
  Forall (fun c => c <= fold_left fadd l acc) (cumsum_from acc l).
Proof.
  intros Ha H. revert acc Ha. induction H as [|x l Hx Hl IH]; intros acc Ha; simpl.
  - constructor.
  - constructor.
    + apply fold_fadd_ge; [apply is_float_fadd | exact Hl].
    + apply IH, is_float_fadd.
Qed.

(** X2. For an array with non-negative entries the sampler raises
    [IndexError] exactly when the array is empty or the draw exceeds the
    float sum of the array accumulated from left to right (the last
    cumulative sum); nothing in the function checks either. *)
Theorem SimuDemand_IndexError (pdem : list Q) (u : Q) :
  Forall (fun x => 0 <= x) pdem ->
  (SimuDemand pdem u = None <-> pdem = [] \/ fsum_seq pdem < u).
Proof.
  intros Hpos. unfold SimuDemand. rewrite scan_demand_None. split.
  - intros Hall. destruct pdem as [|x l]; [now left | right].
    rewrite Forall_forall in Hall. apply Hall.
    apply cumsum_from_last. discriminate.
  - intros [-> | Hlt]; [constructor|].
    pose proof (cumsum_from_bounded 0 pdem eq_refl Hpos) as Hb.
    rewrite Forall_forall in Hb |- *. intros c Hc. specialize (Hb c Hc).
    unfold fsum_seq in Hlt. lra.
Qed.

Lemma SimuDemand_IndexError_witness :
  SimuDemand [1#2; 1#4] (4#5) = None /\ SimuDemand [] 0 = None.
Proof.
  split.
  - apply (SimuDemand_IndexError [1#2; 1#4] (4#5)).
    + repeat constructor; discriminate.
    + right. vm_compute. reflexivity.
  - apply (SimuDemand_IndexError [] 0); [constructor | now left].
Defined.

Lemma scan_demand_monotone (u u' : Q) (l : list Q) (i d d' : Z) :
  u <= u' ->
  scan_demand u l i = Some d -> scan_demand u' l i = Some d' -> (d <= d')%Z.
Proof.
  intros Hu. revert i; induction l as [|x l IH]; intros i; simpl; [discriminate|].
  destruct (Qlt_le_dec x u) as [Hlt|Hge]; destruct (Qlt_le_dec x u') as [Hlt'|Hge'].
  - apply IH.
  - lra.
  - intros E E'. inversion E; subst. apply scan_demand_lower in E'. lia.
  - intros E E'. inversion E; inversion E'; subst. lia.
Qed.

(** X3. The sampler is monotone in the draw: a larger uniform draw never
    yields a smaller demand. *)
Theorem SimuDemand_monotone (pdem : list Q) (u u' : Q) (d d' : Z) :
  u <= u' ->
  SimuDemand pdem u = Some d -> SimuDemand pdem u' = Some d' -> (d <= d')%Z.
Proof. intros Hu. apply scan_demand_monotone. exact Hu. Qed.

Lemma SimuDemand_monotone_witness :
  exists d d',
    SimuDemand [1#10; 9#100; 81#100] (5#100) = Some d /\
    SimuDemand [1#10; 9#100; 81#100] (15#100) = Some d' /\ (d <= d')%Z.
Proof.
  exists 0%Z, 1%Z. split; [reflexivity|]. split; [reflexivity|].
  apply (SimuDemand_monotone [1#10; 9#100; 81#100] (5#100) (15#100));
    [discriminate | reflexivity | reflexivity].
Defined.

Lemma scan_demand_positive_mass (u acc : Q) (l : list Q) (i d : Z) :
  acc < u -> is_float acc ->
  scan_demand u (cumsum_from acc l) i = Some d ->
  exists (k : nat) (x : Q),
    d = (i + Z.of_nat k)%Z /\ nth_error l k = Some x /\ 0 < x.
Proof.
  revert acc i; induction l as [|x l IH]; intros acc i Hacc Ha; simpl; [discriminate|].
  destruct (Qlt_le_dec (fadd acc x) u) as [Hlt|Hge]; intros E.
  - destruct (IH (fadd acc x) (i + 1)%Z Hlt (is_float_fadd acc x) E)
      as (k & y & -> & Ey & Hy).
    exists (S k), y. split; [lia|]. split; [exact Ey | exact Hy].
  - inversion E; subst. exists O, x. split; [lia|]. split; [reflexivity|].
    destruct (Qlt_le_dec 0 x) as [Hx | Hx]; [exact Hx | exfalso].
    assert (H : fadd acc x <= acc).
    { unfold is_float in Ha. unfold fadd. rewrite <- Ha at 2. apply rnd_mono. lra. }
    lra.
Qed.

(** X4. A positive draw never selects a demand of zero probability: the
    index returned for [u > 0] has positive mass. *)
Theorem SimuDemand_positive_mass (pdem : list Q) (u : Q) (d : Z) :
  0 < u -> SimuDemand pdem u = Some d ->
  exists x, getitem pdem d = Some x /\ 0 < x.
Proof.
  intros Hu E.
  destruct (scan_demand_positive_mass u 0 pdem 0%Z d Hu eq_refl E)
    as (k & x & -> & Ex & Hx).
  exists x. split; [|exact Hx].
  assert (Hk : (k < length pdem)%nat) by (apply nth_error_Some; congruence).
  rewrite getitem_nat by lia. simpl. now rewrite Nat2Z.id.
Qed.

Lemma SimuDemand_positive_mass_witness :
  exists x, getitem [1#2; 0; 1#2] 2 = Some x /\ 0 < x.
Proof.
  apply (SimuDemand_positive_mass [1#2; 0; 1#2] (3#4) 2); reflexivity.
Defined.

(** X5. With a negative capacity the construction of the demand
    distribution raises [IndexError]: the array is empty and [pdem[M]] does
    not exist. *)
Theorem make_pdem_negative_capacity (M : Z) (q : Q) :
  (M < 0)%Z -> make_pdem M q = None.
Proof.
  intros HM. unfold make_pdem, geometric, range.
  replace (Z.to_nat (M + 1)) with O by lia. simpl.
  unfold getitem, py_index. simpl.
  destruct (Z.leb_spec 0 M); [lia|].
  destruct (Z.leb_spec (- 0) M); [lia | reflexivity].
Qed.

Lemma make_pdem_negative_capacity_witness : make_pdem (-1) (1#10) = None.
Proof. apply (make_pdem_negative_capacity (-1) (1#10)). lia. Defined.

(** ** The baseline policies *)

(** X6. For a stock within capacity and a non-negative [c], [PiConstant]
    orders between 0 and [c] units and never more than the free capacity,
    so the transition never clips its order. *)
Theorem PiConstant_fits_capacity (M s c d : Z) :
  (s <= M)%Z -> (0 <= c)%Z ->
  let a := PiConstant M s c in
  (0 <= a <= c)%Z /\ (s + a <= M)%Z /\
  nextstate s a d M = Z.max 0 (s + a - d).
Proof.
  intros Hs Hc a. unfold a, PiConstant, nextstate. lia.
Qed.

Lemma PiConstant_fits_capacity_witness :
  (0 <= PiConstant 15 14 3 <= 3)%Z /\ (14 + PiConstant 15 14 3 <= 15)%Z.
Proof.
  destruct (PiConstant_fits_capacity 15 14 3 0) as (H1 & H2 & _); [lia | lia |].
  split; [exact H1 | exact H2].
Defined.



(** X8. [PiUniform(s)] returns [s] plus the element drawn from
    [range(M+1-s)]: an action between [s] and [M] (not between 0 and
    [M-s]), and it raises [ValueError] when [s > M]. *)
Theorem PiUniform_range (M s : Z) (k : nat) :
  (forall a, PiUniform M s k = Some a ->
             a = (s + Z.of_nat k)%Z /\ (s <= a <= M)%Z) /\
  ((M < s)%Z -> PiUniform M s k = None) /\
  ((Z.of_nat k <= M - s)%Z -> PiUniform M s k = Some (s + Z.of_nat k)%Z).
Proof.
  unfold PiUniform, rd_sample1. split; [|split].
  - intros a E.
    destruct (nth_error (range (M + 1 - s)) k) as [x|] eqn:Ex; [|discriminate].
    assert (Hk : (k < length (range (M + 1 - s)))%nat)
      by (apply nth_error_Some; congruence).
    rewrite length_range in Hk.
    rewrite nth_error_range in Ex by lia. inversion Ex; subst x.
    simpl in E. inversion E. lia.
  - intros Hs.
    replace (nth_error (range (M + 1 - s)) k) with (@None Z); [reflexivity|].
    symmetry. apply nth_error_None. rewrite length_range. lia.
  - intros Hk. rewrite nth_error_range by lia. reflexivity.
Qed.

(** ** Recorded trajectories *)

Section TrajectoryDynamics.

Variable M : Z.
Variables h c c0 p : Q.
Variable pdem : list Q.
Variable T : Z.
Variable Pi : Z -> Z -> option Z.
Variable s1 : Z.
Variable us : Z -> Q.

(** As for the previous statement on [SimulateTrajectory]: stocks that a
    float holds exactly, draws covered by the cumulative float sums, and
    a policy that returns on the stocks it is called on. *)
Hypothesis M_range : (0 <= M <= 2 ^ 53)%Z.
Hypothesis s1_range : (Z.abs s1 <= 2 ^ 53)%Z.
Hypothesis pdem_ne : pdem <> [].
Hypothesis T_nonneg : (0 <= T)%Z.
Hypothesis us_ok : forall t, (0 <= t < T)%Z -> us t <= fsum_seq pdem.
Hypothesis Pi_ok : forall t s, (0 <= t < T)%Z -> s = s1 \/ (0 <= s <= M)%Z ->
                               exists a, Pi t s = Some a.



End TrajectoryDynamics.


(** ** The kernels as expectations over the demand *)

Lemma sumQ_map_mono {A : Type} (f g : A -> Q) (l : list A) :
  (forall x, In x l -> f x <= g x) -> sumQ (map f l) <= sumQ (map g l).
Proof.
  induction l as [|x l IH]; cbn [map sumQ]; intros H; [apply Qle_refl|].
  apply Qplus_le_compat; [apply H; now left | apply IH; intros; apply H; now right].
Qed.

Lemma sumQ_map_scal_l {A : Type} (k : Q) (f : A -> Q) (l : list A) :
  sumQ (map (fun x => k * f x) l) == k * sumQ (map f l).
Proof.
  induction l as [|x l IH]; cbn [map sumQ]; [ring|]. rewrite IH. ring.
Qed.

Lemma sumQ_map_scal_r {A : Type} (k : Q) (f : A -> Q) (l : list A) :
  sumQ (map (fun x => f x * k) l) == sumQ (map f l) * k.
Proof.
  induction l as [|x l IH]; cbn [map sumQ]; [ring|]. rewrite IH. ring.
Qed.

(** X10. The kernel computation needs no normalised distribution: for
    any [pdem] of length [M+1] it leaves in [K[s,ns,a]] the total mass of
    the demands that lead from [s] to [ns] under [a], and in [avgR[s,a]]
    the sum over the demand of [pdem[d]] times the reward of [nextreward]. *)
Theorem build_kernel_expected_values (M : Z) (h c c0 p : Q) (pdem : list Q) :
  (0 <= M)%Z ->
  Z.of_nat (length pdem) = (M + 1)%Z ->
  exists K avgR,
    build_kernel M h c c0 p pdem = Some (K, avgR) /\
    forall s ns a, (0 <= s <= M)%Z -> (0 <= ns <= M)%Z -> (0 <= a <= M)%Z ->
      exists k r,
        getitem3 K s ns a = Some k /\
        k == sumQ (map (fun d => if (nextstate s a d M =? ns)%Z
                                 then at1 pdem d else 0) (range (M + 1))) /\
        getitem2 avgR s a = Some r /\
        r == sumQ (map (fun d => at1 pdem d * nextreward s a d M c c0 h p)
                       (range (M + 1))).
Proof.
  intros HM Hlen.
  destruct (build_kernel_entries M h c c0 p pdem HM Hlen)
    as (K & avgR & E & HK & HR & Hent).
  exists K, avgR. split; [exact E|].
  intros s ns a Hs Hns Ha. destruct (Hent s ns a Hs Hns Ha) as [EK ER].
  exists (at3 K s ns a), (at2 avgR s a).
  split; [apply (getitem3_total _ _ _ K s ns a HK); lia|].
  split; [exact EK|].
  split; [apply (getitem2_total _ _ avgR s a HR); lia | exact ER].
Qed.

Lemma build_kernel_expected_values_witness :
  exists K avgR,
    build_kernel 1 (3#10) (1#2) (3#10) 1 [1#10; 9#10] = Some (K, avgR) /\
    exists r, getitem2 avgR 1 0 = Some r /\ r == 3#5.
Proof.
  destruct (build_kernel_expected_values 1 (3#10) (1#2) (3#10) 1 [1#10; 9#10])
    as (K & avgR & E & H); [lia | reflexivity |].
  exists K, avgR. split; [exact E|].
  destruct (H 1%Z 0%Z 0%Z) as (k & r & _ & _ & Er & Hr); try lia.
  exists r. split; [exact Er|]. rewrite Hr. reflexivity.
Defined.





Lemma transition_prob_expectation (M : Z) (pdem : list Q) (V : Z -> Q) (s a : Z) :
  (0 <= M)%Z ->
  sumQ (map (fun ns => transition_prob M pdem s ns a * V ns) (range (M + 1)))
  == sumQ (map (fun d => at1 pdem d * V (nextstate s a d M)) (range (M + 1))).
Proof.
  intros HM. unfold transition_prob.
  rewrite (sumQ_map_ext _
             (fun ns => sumQ (map (fun d =>
                (if (nextstate s a d M =? ns)%Z then at1 pdem d else 0) * V ns)
                (range (M + 1))))).
  2: { intros ns _. now rewrite sumQ_map_scal_r. }
  rewrite (sumQ_swap
             (fun ns d => (if (nextstate s a d M =? ns)%Z then at1 pdem d else 0)
                          * V ns)).
  apply sumQ_map_ext. intros d Hd. apply in_range in Hd.
  rewrite (sumQ_single_range _ (M + 1) (nextstate s a d M)).
  - now rewrite Z.eqb_refl.
  - unfold nextstate. lia.
  - intros ns _ Hne.
    replace (nextstate s a d M =? ns)%Z with false
      by (symmetry; apply Z.eqb_neq; lia).
    ring.
Qed.

(** X12. With the tables built by the kernel computation, the entry
    [Q[s,a]] that [Improve(V)] computes is the expectation over the demand
    of the reward plus [gamma] times the value of the next stock:
    [sum_d pdem[d] * (nextreward(s,a,d) + gamma * V[nextstate(s,a,d)])]. *)
Theorem Qvalue_is_expectation (M : Z) (h c c0 p : Q) (pdem : list Q) (gamma : Q)
    (V : list Q) (s a : Z) :
  (0 <= M)%Z ->
  Z.of_nat (length pdem) = (M + 1)%Z ->
  Z.of_nat (length V) = (M + 1)%Z ->
  (0 <= s <= M)%Z -> (0 <= a <= M)%Z ->
  exists K avgR q,
    build_kernel M h c c0 p pdem = Some (K, avgR) /\
    Qvalue M gamma K avgR V s a = Some q /\
    q == sumQ (map (fun d => at1 pdem d
                             * (nextreward s a d M c c0 h p
                                + gamma * at1 V (nextstate s a d M)))
                   (range (M + 1))).
Proof.
  intros HM Hlen HV Hs Ha.
  destruct (build_kernel_entries M h c c0 p pdem HM Hlen)
    as (K & avgR & E & HK & HR & Hent).
  exists K, avgR, (Qvalue_at M gamma K avgR V s a).
  split; [exact E|].
  split; [apply Qvalue_total; assumption|].
  unfold Qvalue_at.
  destruct (Hent s 0%Z a Hs ltac:(lia) Ha) as [_ ->].
  rewrite (sumQ_map_ext _ (fun ns => transition_prob M pdem s ns a * at1 V ns)).
  2: { intros ns Hns. apply in_range in Hns.
       destruct (Hent s ns a Hs ltac:(lia) Ha) as [-> _]. reflexivity. }
  rewrite (transition_prob_expectation M pdem (at1 V) s a HM).
  unfold mean_reward. rewrite <- sumQ_map_scal_l, <- sumQ_map_plus.
  apply sumQ_map_ext. intros d _. ring.
Qed.

Lemma Qvalue_is_expectation_witness :
  exists K avgR q,
    build_kernel 1 (3#10) (1#2) (3#10) 1 [1#10; 9#10] = Some (K, avgR) /\
    Qvalue 1 (97#100) K avgR [9; 0] 0 0 = Some q /\
    q == 873#100.
Proof.
  destruct (Qvalue_is_expectation 1 (3#10) (1#2) (3#10) 1 [1#10; 9#10] (97#100)
              [9; 0] 0 0) as (K & avgR & q & E & Eq & Hq).
  - lia.
  - reflexivity.
  - reflexivity.
  - lia.
  - lia.
  - exists K, avgR, q. split; [exact E|]. split; [exact Eq|].
    rewrite Hq. reflexivity.
Defined.

(** ** The improvement step preserves the order of value arrays *)

Lemma Forall2_nth_error_rel {A : Type} (R : A -> A -> Prop) (l l' : list A) :
  Forall2 R l l' ->
  forall k x y, nth_error l k = Some x -> nth_error l' k = Some y -> R x y.
Proof.
  induction 1 as [|a b l l' Hab _ IH]; intros [|k] x y Ex Ey; simpl in *;
    try discriminate.
  - inversion Ex; inversion Ey; subst. exact Hab.
  - eapply IH; eassumption.
Qed.

Lemma Forall2_of_nth_error {A : Type} (R : A -> A -> Prop) (l l' : list A) :
  length l = length l' ->
  (forall k x y, nth_error l k = Some x -> nth_error l' k = Some y -> R x y) ->
  Forall2 R l l'.
Proof.
  revert l'. induction l as [|a l IH]; intros [|b l'] Hlen H; simpl in Hlen;
    try discriminate; constructor.
  - apply (H O); reflexivity.
  - apply IH; [lia|]. intros k x y Ex Ey. apply (H (S k)); assumption.
Qed.

Lemma Forall2_at1 (V W : list Q) (i : Z) :
  Forall2 Qle V W -> (0 <= i < Z.of_nat (length V))%Z -> at1 V i <= at1 W i.
Proof.
  intros H Hi. pose proof (Forall2_length H) as Hlen.
  unfold at1. rewrite !getitem_nat by lia.
  destruct (nth_error V (Z.to_nat i)) as [x|] eqn:Ex;
    [|apply nth_error_None in Ex; lia].
  destruct (nth_error W (Z.to_nat i)) as [y|] eqn:Ey;
    [|apply nth_error_None in Ey; lia].
  eapply Forall2_nth_error_rel; eassumption.
Qed.

Section ImproveOrder.

Variable M : Z.
Variable gamma : Q.
Variable K : list (list (list Q)).
Variable avgR : list (list Q).

Hypothesis M_nonneg : (0 <= M)%Z.
Hypothesis K_shape : shape3 (M + 1) (M + 1) (M + 1) K.
Hypothesis avgR_shape : shape2 (M + 1) (M + 1) avgR.
Hypothesis K_nonneg :
  forall s ns a, (0 <= s <= M)%Z -> (0 <= ns <= M)%Z -> (0 <= a <= M)%Z ->
    0 <= at3 K s ns a.
Hypothesis gamma_nonneg : 0 <= gamma.

Lemma Qvalue_at_monotone (V W : list Q) (s a : Z) :
  Z.of_nat (length V) = (M + 1)%Z -> Forall2 Qle V W ->
  (0 <= s <= M)%Z -> (0 <= a <= M)%Z ->
  Qvalue_at M gamma K avgR V s a <= Qvalue_at M gamma K avgR W s a.
Proof.
  intros HV HVW Hs Ha. unfold Qvalue_at.
  assert (H : sumQ (map (fun ns => at3 K s ns a * at1 V ns) (range (M + 1)))
              <= sumQ (map (fun ns => at3 K s ns a * at1 W ns) (range (M + 1)))).
  { apply sumQ_map_mono. intros ns Hns. apply in_range in Hns.
    pose proof (K_nonneg s ns a Hs ltac:(lia) Ha) as Hk.
    pose proof (Forall2_at1 V W ns HVW ltac:(lia)) as Hle. nra. }
  nra.
Qed.

Lemma Improve_monotone_gen (V W : list Q) :
  Z.of_nat (length V) = (M + 1)%Z -> Forall2 Qle V W ->
  exists P1 N1 P2 N2,
    Improve M gamma K avgR V = Some (P1, N1) /\
    Improve M gamma K avgR W = Some (P2, N2) /\
    Forall2 Qle N1 N2.
Proof.
  intros HV HVW.
  assert (HW : Z.of_nat (length W) = (M + 1)%Z)
    by (rewrite <- (Forall2_length HVW); exact HV).
  destruct (Improve_greedy_all M gamma K avgR V M_nonneg K_shape avgR_shape HV)
    as (P1 & N1 & E1 & _ & HN1 & G1).
  destruct (Improve_greedy_all M gamma K avgR W M_nonneg K_shape avgR_shape HW)
    as (P2 & N2 & E2 & _ & HN2 & G2).
  exists P1, N1, P2, N2. split; [exact E1|]. split; [exact E2|].
  apply Forall2_of_nth_error; [lia|].
  intros k x y Ex Ey.
  assert (Hk : (k < length N1)%nat) by (apply nth_error_Some; congruence).
  destruct (G1 (Z.of_nat k) ltac:(lia)) as (pi1 & _ & Hpi1 & EN1 & _).
  destruct (G2 (Z.of_nat k) ltac:(lia)) as (pi2 & _ & Hpi2 & EN2 & Hmax2).
  rewrite getitem_nat, Nat2Z.id in EN1, EN2 by lia.
  rewrite Ex in EN1. rewrite Ey in EN2. inversion EN1; inversion EN2; subst x y.
  apply Qle_trans with (Qvalue_at M gamma K avgR W (Z.of_nat k) pi1).
  - apply Qvalue_at_monotone; try assumption; lia.
  - apply Hmax2. exact Hpi1.
Qed.

End ImproveOrder.

(** X13. The value update of [Improve] is monotone: with the tables built
    from a distribution with non-negative entries and [gamma >= 0], if
    [V <= W] entry by entry then the new values returned for [V] are below
    those returned for [W], entry by entry. *)
Theorem Improve_monotone (M : Z) (h c c0 p : Q) (pdem : list Q) (gamma : Q) :
  (0 <= M)%Z ->
  Z.of_nat (length pdem) = (M + 1)%Z ->
  Forall (fun x => 0 <= x) pdem ->
  0 <= gamma ->
  exists K avgR,
    build_kernel M h c c0 p pdem = Some (K, avgR) /\
    forall V W,
      Z.of_nat (length V) = (M + 1)%Z -> Forall2 Qle V W ->
      exists P1 N1 P2 N2,
        Improve M gamma K avgR V = Some (P1, N1) /\
        Improve M gamma K avgR W = Some (P2, N2) /\
        Forall2 Qle N1 N2.
Proof.
  intros HM Hlen Hpos Hg.
  destruct (build_kernel_entries M h c c0 p pdem HM Hlen)
    as (K & avgR & E & HK & HR & Hent).
  exists K, avgR. split; [exact E|].
  intros V W HV HVW.
  apply (Improve_monotone_gen M gamma K avgR HM HK HR); try assumption.
  intros s ns a Hs Hns Ha. destruct (Hent s ns a Hs Hns Ha) as [-> _].
  now apply transition_prob_nonneg.
Qed.

Lemma Improve_monotone_witness :
  exists K avgR,
    build_kernel 1 (3#10) (1#2) (3#10) 1 [1#10; 9#10] = Some (K, avgR) /\
    exists P1 N1 P2 N2,
      Improve 1 (97#100) K avgR [0; 0] = Some (P1, N1) /\
      Improve 1 (97#100) K avgR [9; 0] = Some (P2, N2) /\
      Forall2 Qle N1 N2.
Proof.
  destruct (Improve_monotone 1 (3#10) (1#2) (3#10) 1 [1#10; 9#10] (97#100))
    as (K & avgR & E & H).
  - lia.
  - reflexivity.
  - repeat constructor; discriminate.
  - discriminate.
  - exists K, avgR. split; [exact E|]. apply H; [reflexivity|].
    repeat constructor; discriminate.
Defined.

(** ** Value iteration: what it returns, and that it returns *)


Lemma ValueIteration_loop_unfold (M : Z) (gamma : Q) (K : list (list (list Q)))
    (avgR : list (list Q)) (fuel : nat) (eps : Q) (st : list Q * list Z * list Q * Z) :
  ValueIteration_loop M gamma K avgR fuel eps st
  = if VI_continues eps st then
      match fuel with
      | O => None
      | S fuel' =>
          st' <- ValueIteration_body M gamma K avgR st ;;
          ValueIteration_loop M gamma K avgR fuel' eps st'
      end
    else Some (VI_result st).
Proof.
  destruct st as [[[V Pi] newV] nIt]. destruct fuel; reflexivity.
Qed.






Lemma Qpower_succ (g : Q) (n : nat) :
  g ^ Z.of_nat (S n) == g ^ Z.of_nat n * g.
Proof.
  replace (Z.of_nat (S n)) with (Z.of_nat n + 1)%Z by lia.
  rewrite Qpower_plus' by lia. now rewrite Qpower_1_r.
Qed.

Lemma inject_Z_succ (n : nat) :
  inject_Z (Z.of_nat (S n)) == inject_Z (Z.of_nat n) + 1.
Proof.
  replace (Z.of_nat (S n)) with (Z.of_nat n + 1)%Z by lia.
  rewrite inject_Z_plus. reflexivity.
Qed.

Lemma inject_Z_nat_nonneg (n : nat) : 0 <= inject_Z (Z.of_nat n).
Proof. change 0 with (inject_Z 0). rewrite <- Zle_Qle. lia. Qed.

(** Bernoulli's bound for the powers of a discount factor. *)
Lemma power_decay (g : Q) (n : nat) :
  0 <= g -> g < 1 ->
  0 <= g ^ Z.of_nat n /\ g ^ Z.of_nat n <= 1 /\
  g ^ Z.of_nat n * (1 + inject_Z (Z.of_nat n) * (1 - g)) <= 1.
Proof.
  intros Hg0 Hg1. induction n as [|n (Hp0 & Hp1 & IH)].
  - change (g ^ Z.of_nat 0) with 1. change (inject_Z (Z.of_nat 0)) with 0.
    repeat split; lra.
  - rewrite Qpower_succ, inject_Z_succ.
    set (P := g ^ Z.of_nat n) in *. set (N := inject_Z (Z.of_nat n)) in *.
    assert (HN : 0 <= N) by apply inject_Z_nat_nonneg.
    clearbody P N.
    assert (Hgt : 0 <= g * (1 - g)) by (apply Qmult_le_0_compat; lra).
    assert (H0 : P * g <= 1 * g) by (apply Qmult_le_compat_r; assumption).
    split; [apply Qmult_le_0_compat; assumption|]. split; [lra|].
    assert (H1 : (P * (1 + N * (1 - g))) * g <= 1 * g)
      by (apply Qmult_le_compat_r; assumption).
    assert (H2 : P * (g * (1 - g)) <= 1 * (g * (1 - g)))
      by (apply Qmult_le_compat_r; assumption).
    assert (Hsq : 0 <= (1 - g) * (1 - g)) by (apply Qmult_le_0_compat; lra).
    lra.
Qed.

Lemma geometric_decay (g c delta : Q) :
  0 <= g -> g < 1 -> 0 <= c -> 0 < delta ->
  exists n : nat, g ^ Z.of_nat n * c <= delta.
Proof.
  intros Hg0 Hg1 Hc Hd.
  set (t := 1 - g). assert (Ht : 0 < t) by (unfold t; lra).
  set (q := c / (delta * t)).
  exists (Z.to_nat (Z.max 0 (Qceiling q))).
  set (n := Z.to_nat (Z.max 0 (Qceiling q))).
  destruct (power_decay g n Hg0 Hg1) as (Hp0 & Hp1 & Hb).
  set (P := g ^ Z.of_nat n) in *. set (N := inject_Z (Z.of_nat n)) in *.
  assert (HqN : q <= N).
  { apply Qle_trans with (inject_Z (Qceiling q)); [apply Qle_ceiling|].
    unfold N. rewrite <- Zle_Qle. unfold n. lia. }
  assert (Hdt : 0 < delta * t) by nra.
  assert (Hcq : c == q * (delta * t)).
  { unfold q. field. split; intros H0; rewrite H0 in *; lra. }
  assert (HcN : c <= N * (delta * t)).
  { rewrite Hcq. apply Qmult_le_compat_r; [exact HqN | lra]. }
  fold t in Hb. clearbody P N t.
  assert (H1 : c * P <= N * (delta * t) * P)
    by (apply Qmult_le_compat_r; assumption).
  assert (H2 : (P * (1 + N * t)) * delta <= 1 * delta)
    by (apply Qmult_le_compat_r; [assumption | lra]).
  assert (H3 : 0 <= P * delta) by (apply Qmult_le_0_compat; lra).
  lra.
Qed.

Lemma length_vsub (A B : list Q) :
  length (vsub A B) = Nat.min (length A) (length B).
Proof. unfold vsub. now rewrite length_map, length_combine. Qed.

Lemma sqnorm_le_supnorm (x : list Q) :
  sqnorm x <= inject_Z (Z.of_nat (length x)) * (supnorm x * supnorm x).
Proof.
  induction x as [|v x IH].
  - unfold sqnorm. cbn [map sumQ supnorm length].
    change (inject_Z (Z.of_nat 0)) with 0. lra.
  - unfold sqnorm in *. cbn [map sumQ supnorm length]. rewrite inject_Z_succ.
    assert (Hv : Qabs v <= Qmax (Qabs v) (supnorm x)) by apply Q.le_max_l.
    assert (Hx : supnorm x <= Qmax (Qabs v) (supnorm x)) by apply Q.le_max_r.
    pose proof (supnorm_nonneg x) as Hx0.
    apply Qabs_Qle_condition in Hv. destruct Hv as [Hlo Hhi].
    pose proof (inject_Z_nat_nonneg (length x)) as HN.
    remember (Qmax (Qabs v) (supnorm x)) as s eqn:Es.
    remember (inject_Z (Z.of_nat (length x))) as N eqn:EN.
    remember (sumQ (map (fun v => v * v) x)) as S0 eqn:ES0.
    remember (supnorm x) as sx eqn:Esx.
    clear Es EN ES0 Esx.
    assert (Hvv : v * v <= s * s) by nra.
    assert (Hss : sx * sx <= s * s) by nra.
    assert (HNs : (sx * sx) * N <= (s * s) * N)
      by (apply Qmult_le_compat_r; assumption).
    lra.
Qed.

Section ValueIterationTermination.

Variable M : Z.
Variable gamma : Q.
Variable K : list (list (list Q)).
Variable avgR : list (list Q).

Hypothesis M_nonneg : (0 <= M)%Z.
Hypothesis K_shape : shape3 (M + 1) (M + 1) (M + 1) K.
Hypothesis avgR_shape : shape2 (M + 1) (M + 1) avgR.
Hypothesis K_stochastic : stochastic M K.
Hypothesis gamma_nonneg : 0 <= gamma.
Hypothesis gamma_lt_1 : gamma < 1.

Lemma ValueIteration_body_runs (V : list Q) (Pi : list Z) (newV : list Q) (nIt : Z) :
  Z.of_nat (length newV) = (M + 1)%Z ->
  exists Pi' newV',
    ValueIteration_body M gamma K avgR (V, Pi, newV, nIt)
    = Some (newV, Pi', newV', (nIt + 1)%Z) /\
    Z.of_nat (length newV') = (M + 1)%Z.
Proof.
  intros Hl.
  destruct (Improve_greedy_all M gamma K avgR newV M_nonneg K_shape avgR_shape Hl)
    as (P1 & N1 & E1 & _ & HN1 & _).
  exists P1, N1. split; [|exact HN1].
  unfold ValueIteration_body. now rewrite E1.
Qed.

(** After the first pass, each pass shrinks the change by [gamma] in the
    maximum norm. *)
Lemma ValueIteration_change_decay (n : nat) :
  forall V Pi newV nIt,
    Z.of_nat (length newV) = (M + 1)%Z ->
    exists st1 Vn Pn Nn kn,
      ValueIteration_body M gamma K avgR (V, Pi, newV, nIt) = Some st1 /\
      iterate_body (ValueIteration_body M gamma K avgR) n st1
      = Some (Vn, Pn, Nn, kn) /\
      Z.of_nat (length Nn) = (M + 1)%Z /\
      sup_change (Vn, Pn, Nn, kn) <= gamma ^ Z.of_nat n * sup_change st1.
Proof.
  induction n as [|n IH]; intros V Pi newV nIt Hl;
    destruct (ValueIteration_body_runs V Pi newV nIt Hl) as (P1 & N1 & E1 & HN1).
  - exists (newV, P1, N1, (nIt + 1)%Z), newV, P1, N1, (nIt + 1)%Z.
    split; [exact E1|]. split; [reflexivity|]. split; [exact HN1|].
    change (gamma ^ Z.of_nat 0) with 1. lra.
  - destruct (IH newV P1 N1 (nIt + 1)%Z HN1)
      as (st2 & Vn & Pn & Nn & kn & E2 & En & HNn & Hdec).
    exists (newV, P1, N1, (nIt + 1)%Z), Vn, Pn, Nn, kn.
    split; [exact E1|]. split; [cbn [iterate_body]; rewrite E2; exact En|].
    split; [exact HNn|].
    destruct (ValueIteration_body_contracts M gamma K avgR M_nonneg K_shape
                avgR_shape K_stochastic gamma_nonneg V Pi newV nIt gamma_lt_1 Hl)
      as (st1' & st2' & E1' & E2' & Hc & _).
    rewrite E1 in E1'. inversion E1'; subst st1'.
    rewrite E2 in E2'. inversion E2'; subst st2'.
    destruct (power_decay gamma n gamma_nonneg gamma_lt_1) as (Hp0 & _ & _).
    rewrite Qpower_succ.
    remember (gamma ^ Z.of_nat n) as P eqn:EP. clear EP.
    assert (H1 : sup_change st2 * P <= gamma * sup_change (newV, P1, N1, (nIt + 1)%Z) * P)
      by (apply Qmult_le_compat_r; assumption).
    lra.
Qed.

Lemma ValueIteration_reaches_small_change (eps : Q) (V : list Q) (Pi : list Z)
    (newV : list Q) (nIt : Z) :
  0 < eps -> Z.of_nat (length newV) = (M + 1)%Z ->
  exists n stn,
    iterate_body (ValueIteration_body M gamma K avgR) n (V, Pi, newV, nIt)
    = Some stn /\
    VI_continues eps stn = false.
Proof.
  intros Heps Hl.
  destruct (ValueIteration_body_runs V Pi newV nIt Hl) as (P1 & N1 & E1 & HN1).
  set (st1 := (newV, P1, N1, (nIt + 1)%Z)) in *.
  set (L := inject_Z (M + 1)).
  assert (HL : 1 <= L).
  { unfold L. change 1 with (inject_Z 1). rewrite <- Zle_Qle. lia. }
  assert (Hc1 : 0 <= sup_change st1) by (unfold st1, sup_change; apply supnorm_nonneg).
  destruct (geometric_decay gamma (sup_change st1 * L) eps gamma_nonneg gamma_lt_1)
    as (j & Hj); [nra | exact Heps |].
  destruct (ValueIteration_change_decay j V Pi newV nIt Hl)
    as (st1' & Vn & Pn & Nn & kn & E1' & En & HNn & Hdec).
  rewrite E1 in E1'. inversion E1'; subst st1'. fold st1 in En, Hdec.
  exists (S j), (Vn, Pn, Nn, kn).
  split; [cbn [iterate_body]; rewrite E1; exact En|].
  unfold VI_continues, norm_gt.
  destruct (Qlt_le_dec eps 0) as [Hneg|_]; [lra|].
  destruct (Qlt_le_dec (eps * eps) (sqnorm (vsub Vn Nn))) as [Hbig|]; [|reflexivity].
  exfalso.
  pose proof (sqnorm_le_supnorm (vsub Vn Nn)) as Hsq.
  assert (Hlen : inject_Z (Z.of_nat (length (vsub Vn Nn))) <= L).
  { unfold L. rewrite <- Zle_Qle. rewrite length_vsub. lia. }
  pose proof (inject_Z_nat_nonneg (length (vsub Vn Nn))) as Hlen0.
  unfold sup_change at 1 in Hdec.
  pose proof (supnorm_nonneg (vsub Vn Nn)) as Hy0.
  destruct (power_decay gamma j gamma_nonneg gamma_lt_1) as (Hp0 & _ & _).
  remember (supnorm (vsub Vn Nn)) as y eqn:Ey.
  remember (gamma ^ Z.of_nat j) as P eqn:EP.
  remember (sup_change st1) as c1 eqn:Ec1.
  remember (inject_Z (Z.of_nat (length (vsub Vn Nn)))) as N eqn:EN.
  remember (sqnorm (vsub Vn Nn)) as sq eqn:Esq.
  clear Ey EP Ec1 EN Esq.
  assert (Hw0 : 0 <= P * c1) by (apply Qmult_le_0_compat; assumption).
  assert (Hyy : y * y <= (P * c1) * (P * c1)) by nra.
  assert (H1 : (y * y) * N <= ((P * c1) * (P * c1)) * N)
    by (apply Qmult_le_compat_r; assumption).
  assert (Hww0 : 0 <= (P * c1) * (P * c1)) by (apply Qmult_le_0_compat; assumption).
  assert (H2 : N * ((P * c1) * (P * c1)) <= L * ((P * c1) * (P * c1)))
    by (apply Qmult_le_compat_r; assumption).
  assert (H3 : 1 * (L * ((P * c1) * (P * c1))) <= L * (L * ((P * c1) * (P * c1)))).
  { apply Qmult_le_compat_r; [exact HL|]. apply Qmult_le_0_compat; lra. }
  assert (HLw : 0 <= L * (P * c1)) by (apply Qmult_le_0_compat; lra).
  assert (H4 : (L * (P * c1)) * (L * (P * c1)) <= eps * eps) by nra.
  lra.
Qed.

Lemma ValueIteration_loop_from_iterate (eps : Q) (n : nat) :
  forall st stn,
    iterate_body (ValueIteration_body M gamma K avgR) n st = Some stn ->
    VI_continues eps stn = false ->
    exists (m : nat) r,
      (m <= n)%nat /\
      forall fuel, (m <= fuel)%nat ->
        ValueIteration_loop M gamma K avgR fuel eps st = Some r.
Proof.
  induction n as [|n IH]; intros st stn En Hstop.
  - simpl in En. inversion En; subst stn.
    exists O, (VI_result st). split; [lia|]. intros fuel _.
    rewrite ValueIteration_loop_unfold, Hstop. reflexivity.
  - destruct (VI_continues eps st) eqn:Ec.
    + cbn [iterate_body] in En. apply bind_Some in En as (st1 & E1 & En).
      destruct (IH st1 stn En Hstop) as (m & r & Hm & Hloop).
      exists (S m), r. split; [lia|]. intros [|fuel] Hf; [lia|].
      rewrite ValueIteration_loop_unfold, Ec, E1. simpl. apply Hloop. lia.
    + exists O, (VI_result st). split; [lia|]. intros fuel _.
      rewrite ValueIteration_loop_unfold, Ec. reflexivity.
Qed.

Lemma ValueIteration_terminates_gen (eps : Q) (rand : list Q) :
  0 < eps -> Z.of_nat (length rand) = (M + 1)%Z ->
  exists (n : nat) r,
    forall fuel, (n <= fuel)%nat ->
      ValueIteration M gamma K avgR fuel eps rand = Some r.
Proof.
  intros Heps Hl. unfold ValueIteration. rewrite zeros_eq by lia. simpl.
  destruct (ValueIteration_reaches_small_change eps
              (repeat 0 (Z.to_nat (M + 1)))
              (map (fun _ => 0%Z) (repeat 0 (Z.to_nat (M + 1)))) rand 0%Z Heps Hl)
    as (n & stn & En & Hstop).
  destruct (ValueIteration_loop_from_iterate eps n _ stn En Hstop)
    as (m & r & _ & Hloop).
  exists m, r. exact Hloop.
Qed.

End ValueIterationTermination.

(** X15. [ValueIteration] terminates: for [gamma] in [[0,1)], a
    probability distribution [pdem], a positive [epsilon] and any starting
    array of length [M+1], the [while] loop stops after finitely many
    passes; beyond that number the result does not depend on the bound put
    on the number of passes. *)
Theorem ValueIteration_terminates (M : Z) (h c c0 p : Q) (pdem : list Q)
    (gamma eps : Q) (rand : list Q) :
  (0 <= M)%Z ->
  Z.of_nat (length pdem) = (M + 1)%Z ->
  Forall (fun x => 0 <= x) pdem ->
  sumQ pdem == 1 ->
  0 <= gamma -> gamma < 1 ->
  0 < eps ->
  Z.of_nat (length rand) = (M + 1)%Z ->
  exists K avgR,
    build_kernel M h c c0 p pdem = Some (K, avgR) /\
    exists (n : nat) r,
      forall fuel, (n <= fuel)%nat ->
        ValueIteration M gamma K avgR fuel eps rand = Some r.
Proof.
  intros HM Hlen Hpos Hsum Hg0 Hg1 Heps Hl.
  destruct (build_kernel_stochastic M h c c0 p pdem HM Hlen Hpos Hsum)
    as (K & avgR & E & HK & HR & Hst).
  exists K, avgR. split; [exact E|].
  now apply (ValueIteration_terminates_gen M gamma K avgR HM HK HR Hst Hg0 Hg1).
Qed.

Lemma ValueIteration_terminates_witness :
  exists K avgR,
    build_kernel 1 (3#10) (1#2) (3#10) 1 [1#10; 9#10] = Some (K, avgR) /\
    exists (n : nat) r,
      forall fuel, (n <= fuel)%nat ->
        ValueIteration 1 (97#100) K avgR fuel (1#1000) [0; 3#5] = Some r.
Proof.
  apply (ValueIteration_terminates 1 (3#10) (1#2) (3#10) 1 [1#10; 9#10]
           (97#100) (1#1000) [0; 3#5]).
  - lia.
  - reflexivity.
  - repeat constructor; discriminate.
  - reflexivity.
  - discriminate.
  - reflexivity.
  - reflexivity.
  - reflexivity.
Defined.

(** ** Q-learning runs to completion *)





Section LearningRuns.

Variable M : Z.
Variables h c c0 p : Q.
Variable pdem : list Q.
Variable gamma : Q.
Variable pow_half : Q -> Q.
Variable rng : Z -> draws.

(** The random actions lie in [[0,M]], and every demand draw is at most
    the last cumulative float sum of [pdem], so that no sampler call
    raises. *)
Hypothesis M_nonneg : (0 <= M)%Z.
Hypothesis pdem_ne : pdem <> [].
Hypothesis rng_action : forall n, (0 <= rand_action (rng n) <= M)%Z.
Hypothesis rng_demand : forall n, rand_demand (rng n) <= fsum_seq pdem.





End LearningRuns.


(** X17. With fewer than two landmarks [QLearning] performs no update and
    fails at its [return]: [Pi] was never assigned. *)
Theorem QLearning_needs_two_landmarks (M : Z) (h c c0 p : Q) (pdem : list Q)
    (gamma : Q) (pow_half : Q -> Q) (rng : Z -> draws) (Landmarks : list Z)
    (Q0 : list (list Q)) (s0 : Z) :
  (length Landmarks <= 1)%nat ->
  QLearning M h c c0 p pdem gamma pow_half rng Landmarks Q0 s0 = None.
Proof.
  intros HL. unfold QLearning.
  destruct (QLearning_init M h c c0 p pdem Q0 s0) as [st0|]; [|reflexivity].
  simpl. unfold range.
  replace (Z.to_nat (Z.of_nat (length Landmarks) - 1)) with O by lia.
  reflexivity.
Qed.

Lemma QLearning_needs_two_landmarks_witness :
  QLearning 1 (3#10) (1#2) (3#10) 1 [1#10; 9#10] (97#100) newton_sqrt
            (fun _ => mkDraws 1 (1#2) (1#2)) [1000]%Z [[1; 2]; [3; 4]] 0
  = None.
Proof.
  apply (QLearning_needs_two_landmarks 1 (3#10) (1#2) (3#10) 1 [1#10; 9#10]
           (97#100) newton_sqrt (fun _ => mkDraws 1 (1#2) (1#2)) [1000]%Z).
  simpl. lia.
Defined.

(** ** TD(0) runs to completion *)



Section EvaluationRuns.

Variable M : Z.
Variables h c c0 p : Q.
Variable pdem : list Q.
Variable gamma : Q.
Variable pow_half : Q -> Q.
Variable Pi : Z -> Z -> option Z.
Variable T : Z.
Variable us : Z -> Q.

(** Every draw is at most the last cumulative float sum of [pdem], and
    the policy returns on the stocks in [[0,M]]. *)
Hypothesis M_nonneg : (0 <= M)%Z.
Hypothesis pdem_ne : pdem <> [].
Hypothesis T_nonneg : (0 <= T)%Z.
Hypothesis us_ok : forall t, (0 <= t < T)%Z -> us t <= fsum_seq pdem.
Hypothesis Pi_ok : forall t s, (0 <= t < T)%Z -> (0 <= s <= M)%Z ->
                               exists a, Pi t s = Some a.



End EvaluationRuns.


(** ** The episode counters of the CartPole loop *)

Lemma count_done_succ (n : Z) (dones : Z -> bool) :
  (0 <= n)%Z ->
  count_done (n + 1) dones
  = (count_done n dones + (if dones n then 1 else 0))%Z.
Proof.
  intros Hn. unfold count_done. rewrite range_succ by exact Hn.
  rewrite filter_app, length_app. simpl. destruct (dones n); simpl; lia.
Qed.

Lemma episode_loop_succ (n : Z) (dones : Z -> bool) :
  (0 <= n)%Z ->
  episode_loop (n + 1) dones = episode_body (dones n) (episode_loop n dones).
Proof.
  intros Hn. unfold episode_loop. rewrite range_succ by exact Hn.
  now rewrite fold_left_app.
Qed.

Lemma episode_loop_invariant (dones : Z -> bool) (k : nat) :
  let '(episode, cumulative_reward, maximum_reward) :=
    episode_loop (Z.of_nat k) dones in
  episode = count_done (Z.of_nat k) dones /\
  (0 <= cumulative_reward)%Z /\ (0 <= maximum_reward)%Z /\
  (episode + cumulative_reward + maximum_reward <= Z.of_nat k)%Z /\
  (episode = 0%Z -> maximum_reward = 0%Z /\ cumulative_reward = Z.of_nat k).
Proof.
  induction k as [|k IH].
  - simpl. repeat split; lia.
  - replace (Z.of_nat (S k)) with (Z.of_nat k + 1)%Z by lia.
    rewrite episode_loop_succ, count_done_succ by lia.
    destruct (episode_loop (Z.of_nat k) dones) as [[e cum] mx].
    destruct IH as (He & Hc & Hm & Hsum & Hzero).
    assert (Hcount : (0 <= count_done (Z.of_nat k) dones)%Z)
      by (unfold count_done; lia).
    unfold episode_body. destruct (dones (Z.of_nat k)).
    + destruct (Z.ltb_spec mx cum); repeat split; lia.
    + repeat split; try lia.
Qed.

(** X19. In the CartPole loop run for [n] steps, [episode] ends as the
    number of steps that returned [done]; the reported maximum counts only
    steps of finished episodes that did not return [done], so
    [episode + maximum_reward + cumulative_reward <= n], and when no step
    returns [done] the maximum stays 0 however long the run. *)
Theorem episode_loop_counts (n : Z) (dones : Z -> bool) :
  (0 <= n)%Z ->
  exists episode cumulative_reward maximum_reward,
    episode_loop n dones = (episode, cumulative_reward, maximum_reward) /\
    episode = count_done n dones /\
    (0 <= cumulative_reward)%Z /\ (0 <= maximum_reward)%Z /\
    (episode + cumulative_reward + maximum_reward <= n)%Z /\
    (episode = 0%Z -> maximum_reward = 0%Z /\ cumulative_reward = n).
Proof.
  intros Hn. pose proof (episode_loop_invariant dones (Z.to_nat n)) as H.
  rewrite Z2Nat.id in H by exact Hn.
  destruct (episode_loop n dones) as [[e cum] mx].
  exists e, cum, mx. split; [reflexivity | exact H].
Qed.

Lemma episode_loop_counts_witness :
  exists episode cumulative_reward maximum_reward,
    cartpole_run (fun _ => false) = (episode, cumulative_reward, maximum_reward) /\
    maximum_reward = 0%Z /\ cumulative_reward = 500%Z.
Proof.
  destruct (episode_loop_counts 500 (fun _ => false))
    as (e & cum & mx & E & He & _ & _ & _ & Hz); [lia|].
  exists e, cum, mx. split; [exact E|]. apply Hz. rewrite He. reflexivity.
Defined.
